(** * bleve/search: result records, per-shape heap overheads and the memory tracker

    A shallow embedding of [search/search.go] and of the memory tracker of
    package [search], followed by the properties proved about them.

    Conventions of the embedding.
    - Go's [uint64] is a [Z] reduced modulo [2^64] after every operation;
      Go's [int] is a [Z] reduced to the two's-complement range of the
      platform word after every operation.
    - A Go map is a [gmap]; a map value that the code mutates while another
      object holds it ([TermLocationMap]) lives in a store and is named by
      an address, [None] being the nil map.
    - A pointer the code tests against nil is an [option]; a receiver is an
      address in a store of records, and a method that writes to its
      receiver returns [None] where Go panics on a nil receiver.
    - A slice whose capacity matters ([IndexInternalID], [Sort]) is a backing
      array together with a length; the other slices are the sequences of
      their elements, each owned by the entry that holds it.
    - [float64] is [spec_float], the IEEE-754 datatype of the standard
      library, compared with [SFcompare]. *)

From Stdlib Require Import ZArith Lia String Ascii List.
From Stdlib Require Import Floats.SpecFloat.
From stdpp Require Import base option list gmap strings fin_maps relations.

Open Scope Z_scope.

(** ** Machine integers *)

Module GoInt.

(** [uint64]: every result is taken modulo [2^64]. *)
Definition uint64_modulus : Z := 2 ^ 64.
Definition MaxUint64 : Z := uint64_modulus - 1.
Definition is_uint64 (n : Z) : Prop := 0 ≤ n ≤ MaxUint64.
Definition uint64 (n : Z) : Z := n mod uint64_modulus.
Definition uint64_add (a b : Z) : Z := uint64 (a + b).

(** [int]: [bits] is the width of the platform word (32 or 64); results are
    reduced to [[-2^(bits-1), 2^(bits-1))]. *)
Definition MaxInt (bits : Z) : Z := 2 ^ (bits - 1) - 1.
Definition MinInt (bits : Z) : Z := - 2 ^ (bits - 1).
Definition in_int (bits n : Z) : Prop := MinInt bits ≤ n ≤ MaxInt bits.
Definition wrap (bits n : Z) : Z :=
  (n + 2 ^ (bits - 1)) mod 2 ^ bits - 2 ^ (bits - 1).

End GoInt.
Import GoInt.

(** ** The memory tracker *)

Module MemTracker.

(** [type MemTracker struct { bytes uint64 }] *)
Record t : Type := mk { bytes : Z }.

(** Trackers are handled through pointers; the store maps the address of
    every allocated tracker to its contents. *)
Definition ptr : Type := positive.
Abbreviation store := (gmap positive t).

(** [func NewMemTracker() *MemTracker { return &MemTracker{} }] *)
Definition NewMemTracker (σ : store) : ptr * store :=
  let m := fresh (dom σ) in (m, <[m := {| bytes := 0 |}]> σ).

(** [func (m *MemTracker) Add(add uint64) { m.bytes += add }];
    [None] is the panic of a nil or dangling receiver. *)
Definition Add (m : ptr) (add : Z) (σ : store) : option store :=
  match σ !! m with
  | Some r => Some (<[m := {| bytes := uint64_add (bytes r) add |}]> σ)
  | None => None
  end.

(** [func (m *MemTracker) Usage() uint64 { return m.bytes }] *)
Definition Usage (m : ptr) (σ : store) : option Z :=
  match σ !! m with
  | Some r => Some (bytes r)
  | None => None
  end.

(** The operations a client can perform on a store of trackers: there are
    only these two. *)
Inductive step : store → store → Prop :=
| step_new σ : step σ (NewMemTracker σ).2
| step_add σ m n σ' : is_uint64 n → Add m n σ = Some σ' → step σ σ'.

(** The stores a program can build, starting with no tracker. *)
Definition reachable (σ : store) : Prop := rtc step ∅ σ.

(** A run of [Add] calls, each on its own receiver. *)
Fixpoint AddAll (calls : list (ptr * Z)) (σ : store) : option store :=
  match calls with
  | [] => Some σ
  | (m, n) :: rest =>
      match Add m n σ with
      | Some σ' => AddAll rest σ'
      | None => None
      end
  end.

End MemTracker.

(** ** Array positions *)

Module ArrayPositions.

(** [type ArrayPositions []uint64] *)
Abbreviation t := (list Z).

(** The loop [for i := range ap { if ap[i] != other[i] { return false } }]
    run over the indices [i, i+1, ...]; [None] is an index out of range. *)
Fixpoint Equals_loop (ap other : t) (indices : list nat) : option bool :=
  match indices with
  | [] => Some true
  | i :: rest =>
      match ap !! i, other !! i with
      | Some x, Some y => if bool_decide (x ≠ y) then Some false
                          else Equals_loop ap other rest
      | _, _ => None
      end
  end.

(** [func (ap ArrayPositions) Equals(other ArrayPositions) bool] *)
Definition Equals (ap other : t) : option bool :=
  if bool_decide (length ap ≠ length other) then Some false
  else Equals_loop ap other (seq 0 (length ap)).

End ArrayPositions.

(** ** Platform constants

    [index.SizeOfPointer] and its companions, and the results of
    [reflect.TypeOf(x).Size()], are fixed by the platform the program is built
    for; they are parameters of the development. *)

(** The struct types measured by [init]. *)
Inductive GoType : Type :=
| TSearchContext | TDocumentMatchPool | TDocumentMatchCollection
| TDocumentMatch | TTermLocationMap | TLocation
| TDocument | TCompositeField | TSearcherOptions.

Class Platform : Type := {
  IntBits : Z;                      (* width of [int] *)
  SizeOfPointer : Z;                (* index.SizeOfPointer *)
  SizeOfString : Z;                 (* index.SizeOfString *)
  SizeOfSlice : Z;                  (* index.SizeOfSlice *)
  SizeOfInterface : Z;              (* index.SizeOfInterface *)
  SizeOfUint64 : Z;                 (* index.SizeOfUint64 *)
  TypeSize : GoType → Z;            (* reflect.TypeOf(x).Size() *)
  IntBits_word : IntBits = 32 ∨ IntBits = 64;
  SizeOfPointer_bounds : 0 < SizeOfPointer < 2 ^ 16;
  SizeOfString_bounds : 0 < SizeOfString < 2 ^ 16;
  SizeOfSlice_bounds : 0 < SizeOfSlice < 2 ^ 16;
  SizeOfInterface_bounds : 0 < SizeOfInterface < 2 ^ 16;
  SizeOfUint64_bounds : 0 < SizeOfUint64 < 2 ^ 16;
  TypeSize_bounds : ∀ ty, 0 ≤ TypeSize ty < 2 ^ 16
}.

(** The values of linux/amd64. For the three types declared in other files
    the size is that of their declaration: a slice and a callback for
    [DocumentMatchPool]; a string and two slices for [Document]; a string,
    two maps, a flag, an option word, a length and a map for
    [CompositeField]. *)
Definition amd64_TypeSize (ty : GoType) : Z :=
  match ty with
  | TSearchContext => 8
  | TDocumentMatchPool => 32
  | TDocumentMatchCollection => 24
  | TDocumentMatch => 136
  | TTermLocationMap => 8
  | TLocation => 48
  | TDocument => 64
  | TCompositeField => 64
  | TSearcherOptions => 2
  end.

#[program] Definition amd64 : Platform :=
  {| IntBits := 64; SizeOfPointer := 8; SizeOfString := 16; SizeOfSlice := 24;
     SizeOfInterface := 16; SizeOfUint64 := 8; TypeSize := amd64_TypeSize |}.
Next Obligation. now right. Qed.
Next Obligation. lia. Qed.
Next Obligation. lia. Qed.
Next Obligation. lia. Qed.
Next Obligation. lia. Qed.
Next Obligation. lia. Qed.
Next Obligation. intros []; simpl; lia. Qed.



Section IntArith.
Context `{Platform}.

(** [a + b] and [a * b] on [int]. *)
Definition iadd (a b : Z) : Z := wrap IntBits (a + b).
Definition imul (a b : Z) : Z := wrap IntBits (a * b).
(** [int(x)] for an unsigned [x]. *)
Definition int (x : Z) : Z := wrap IntBits x.
(** [len(s)] of a string and of a slice given by its elements. *)
Definition len_string (s : string) : Z := Z.of_nat (String.length s).
Definition len {A} (l : list A) : Z := Z.of_nat (length l).
End IntArith.

(** ** The table of heap overheads *)

Section HeapOverhead.
Context `{Platform}.

(** [func init()]: the table is filled once, when the package is loaded. *)
Definition init (table : gmap string Z) : gmap string Z :=
  let table := <["SearchContext" := iadd (int (TypeSize TSearchContext)) SizeOfPointer]> table in
  let table := <["DocumentMatchPool" := iadd (int (TypeSize TDocumentMatchPool)) SizeOfPointer]> table in
  let table := <["DocumentMatchCollection" := int (TypeSize TDocumentMatchCollection)]> table in
  let table := <["DocumentMatch" := iadd (int (TypeSize TDocumentMatch)) SizeOfPointer]> table in
  let table := <["TermLocationMap" := int (TypeSize TTermLocationMap)]> table in
  let table := <["Location" := iadd (int (TypeSize TLocation)) SizeOfPointer]> table in
  let table := <["Document" := iadd (int (TypeSize TDocument)) SizeOfPointer]> table in
  let table := <["CompositeField" := iadd (int (TypeSize TCompositeField)) SizeOfPointer]> table in
  let table := <["SearcherOptions" := iadd (int (TypeSize TSearcherOptions)) SizeOfPointer]> table in
  table.

(** [var HeapOverhead = map[string]int{}], after [init]. *)
Definition HeapOverhead : gmap string Z := init ∅.

(** [HeapOverhead[key]]: reading a key that is not in a Go map gives the
    zero value. *)
Definition HeapOverhead_at (key : string) : Z :=
  default 0 (HeapOverhead !! key).
End HeapOverhead.

(** ** Locations *)

Module Location.

(** [type Location struct { Pos, Start, End uint64; ArrayPositions ArrayPositions }]
    ([End] is spelt [End_] here). *)
Record t : Type := mk {
  Pos : Z;
  Start : Z;
  End_ : Z;
  ArrayPositions : ArrayPositions.t
}.

Section Methods.
Context `{Platform}.

(** [func (l *Location) SizeInBytes() int] *)
Definition SizeInBytes (l : t) : Z :=
  iadd (HeapOverhead_at "Location") (imul (len (ArrayPositions l)) SizeOfUint64).

End Methods.
End Location.

(** [type Locations []*Location]: the sequence of the records pointed to.
    No function of the package writes to a [Location] once it is built, so
    sharing between entries is not observable. The pointers are taken to be
    live: [SizeInBytes] reads through each of them without a test. *)
Abbreviation Locations := (list Location.t).

(** ** Term location maps *)

Module TermLocationMap.

(** [type TermLocationMap map[string]Locations]. A value of this type is a
    reference: [None] is the nil map, [Some a] the map allocated at address
    [a] of the store. An address the store does not hold yet reads as a map
    with no entry. *)
Definition t : Type := option positive.
Abbreviation store := (gmap positive (gmap string Locations)).

Definition entries (σ : store) (a : positive) : gmap string Locations :=
  default ∅ (σ !! a).

(** [t[term]]: a term that is not in the map reads as the nil slice. *)
Definition at_term (m : gmap string Locations) (term : string) : Locations :=
  default [] (m !! term).

(** [func (t TermLocationMap) AddLocation(term string, location *Location)];
    [None] is the panic of an assignment to an entry of the nil map. *)
Definition AddLocation (t : t) (term : string) (location : Location.t)
    (σ : store) : option store :=
  match t with
  | None => None
  | Some a =>
      let m := entries σ a in
      Some (<[a := <[term := at_term m term ++ [location]]> m]> σ)
  end.

Section Methods.
Context `{Platform}.

(** The body of [for k, v := range t]. *)
Definition SizeInBytes_entry (k : string) (v : Locations) (sizeInBytes : Z) : Z :=
  let sizeInBytes :=
    iadd sizeInBytes (iadd (iadd (len_string k) SizeOfString) SizeOfSlice) in
  fold_left (λ sizeInBytes entry, iadd sizeInBytes (Location.SizeInBytes entry))
    v sizeInBytes.

(** [func (t TermLocationMap) SizeInBytes() int]. Ranging over the nil map
    visits nothing. Go fixes no order for the visit; [map_fold] takes one. *)
Definition SizeInBytes (t : t) (σ : store) : Z :=
  let sizeInBytes := HeapOverhead_at "TermLocationMap" in
  match t with
  | None => sizeInBytes
  | Some a => map_fold SizeInBytes_entry sizeInBytes (entries σ a)
  end.

End Methods.
End TermLocationMap.

(** [type FieldTermLocationMap map[string]TermLocationMap] and
    [type FieldFragmentMap map[string][]string]; [None] is the nil map. *)
Abbreviation FieldTermLocationMap := (option (gmap string TermLocationMap.t)).
Abbreviation FieldFragmentMap := (option (gmap string (list string))).

(** Ranging over a map that may be nil. *)
Definition range {A} (m : option (gmap string A)) : gmap string A := default ∅ m.

(** [p == nil] for a pointer. *)
Definition is_nil {A} (p : option A) : bool :=
  match p with
  | None => true
  | Some _ => false
  end.

(** ** Slices with their backing array *)

Module Slice.

(** A slice is the part [array[0:len]] of its backing array; the capacity is
    the length of the array. The nil slice has no array. *)
Record t (A : Type) : Type := mk { array : list A; len : nat }.
Arguments mk {A} _ _.
Arguments array {A} _.
Arguments len {A} _.

Definition nil {A} : t A := mk [] 0%nat.
Definition cap {A} (s : t A) : nat := length (array s).
Definition elems {A} (s : t A) : list A := take (len s) (array s).

(** [s[:n]]; [None] is the panic of [n > cap(s)]. *)
Definition reslice {A} (s : t A) (n : nat) : option (t A) :=
  if decide (n ≤ cap s)%nat then Some (mk (array s) n) else None.

End Slice.

(** ** Collaborators declared in other files

    [Explanation] (same package) and [document.Document] with its fields are
    declared outside [search.go]; what [search.go] calls on them is taken as
    a parameter. *)

Module document.

(** [type Document struct { ID string; Fields []Field; CompositeFields []*CompositeField }] *)
Record Document (Field CompositeField : Type) : Type := mk {
  ID : string;
  Fields : list Field;
  CompositeFields : list CompositeField
}.
Arguments mk {Field CompositeField} _ _ _.
Arguments ID {Field CompositeField} _.
Arguments Fields {Field CompositeField} _.
Arguments CompositeFields {Field CompositeField} _.

End document.

Class Collaborators : Type := {
  Explanation : Type;
  (* func (expl *Explanation) SizeInBytes() int *)
  Explanation_SizeInBytes : Explanation → Z;
  Field : Type;
  CompositeField : Type;
  (* func (d *Document) NumPlainTextBytes() uint64 *)
  NumPlainTextBytes : document.Document Field CompositeField → Z
}.

(** The smallest instance: no explanation detail, no field detail. *)
Definition plain_collaborators : Collaborators :=
  {| Explanation := unit; Explanation_SizeInBytes := λ _, 0;
     Field := unit; CompositeField := unit; NumPlainTextBytes := λ _, 0 |}.

(** ** Field values

    [interface{}] as [DocumentMatch.Fields] holds it: a string, a [float64],
    or a [[]interface{}], which is the one dynamic type [AddFieldValue] tells
    apart. *)
#[warnings="-register-all"]
Inductive interface : Type :=
| IString (s : string)
| IFloat64 (f : spec_float)
| ISlice (l : list interface).

(** [v.([]interface{})] *)
Definition as_slice (v : interface) : option (list interface) :=
  match v with
  | ISlice l => Some l
  | _ => None
  end.

(** [a > b] on [float64]: false as soon as one side is a NaN. *)
Definition float64_gt (a b : spec_float) : bool := SFltb b a.
(** [a == b] on [float64]. *)
Definition float64_eq (a b : spec_float) : bool := SFeqb a b.

(** ** Document matches *)

Module DocumentMatch.
Section DocumentMatch.
Context `{Platform} `{Collaborators}.

(** [type DocumentMatch struct { ... }] *)
Record t : Type := mk {
  Index : string;
  ID : string;
  IndexInternalID : Slice.t Byte.byte;
  Score : spec_float;
  Expl : option Explanation;
  Locations : FieldTermLocationMap;
  Fragments : FieldFragmentMap;
  Sort : Slice.t string;
  Fields : option (gmap string interface);
  Document : option (document.Document Field CompositeField);
  HitNumber : Z
}.

(** [DocumentMatch{}] *)
Definition zero : t :=
  {| Index := ""; ID := ""; IndexInternalID := Slice.nil;
     Score := S754_zero false; Expl := None; Locations := None;
     Fragments := None; Sort := Slice.nil; Fields := None; Document := None;
     HitNumber := 0 |}.

(** Assignments to single fields. *)
Definition set_IndexInternalID (v : Slice.t Byte.byte) (d : t) : t :=
  {| Index := Index d; ID := ID d; IndexInternalID := v; Score := Score d;
     Expl := Expl d; Locations := Locations d; Fragments := Fragments d;
     Sort := Sort d; Fields := Fields d; Document := Document d;
     HitNumber := HitNumber d |}.
Definition set_Sort (v : Slice.t string) (d : t) : t :=
  {| Index := Index d; ID := ID d; IndexInternalID := IndexInternalID d;
     Score := Score d; Expl := Expl d; Locations := Locations d;
     Fragments := Fragments d; Sort := v; Fields := Fields d;
     Document := Document d; HitNumber := HitNumber d |}.
Definition set_Fields (v : option (gmap string interface)) (d : t) : t :=
  {| Index := Index d; ID := ID d; IndexInternalID := IndexInternalID d;
     Score := Score d; Expl := Expl d; Locations := Locations d;
     Fragments := Fragments d; Sort := Sort d; Fields := v;
     Document := Document d; HitNumber := HitNumber d |}.

(** Matches are handled through pointers; the store maps the address of every
    allocated match to its contents. In the methods that write to their
    receiver, [None] is the panic of a nil or dangling receiver. *)
Definition ptr : Type := positive.

(** [func (dm *DocumentMatch) AddFieldValue(name string, value interface{})] *)
Definition AddFieldValue (dm : ptr) (name : string) (value : interface)
    (σ : gmap positive t) : option (gmap positive t) :=
  match σ !! dm with
  | None => None
  | Some d =>
      let fields :=
        match Fields d with
        | None => ∅                      (* make(map[string]interface{}) *)
        | Some fields => fields
        end in
      match fields !! name with
      | None => Some (<[dm := set_Fields (Some (<[name := value]> fields)) d]> σ)
      | Some existingVal =>
          let valSlice :=
            match as_slice existingVal with
            | Some valSlice => valSlice ++ [value]
            | None => [existingVal; value]
            end in
          Some (<[dm := set_Fields (Some (<[name := ISlice valSlice]> fields)) d]> σ)
      end
  end.

(** [func (dm *DocumentMatch) Reset() *DocumentMatch] *)
Definition Reset (dm : ptr) (σ : gmap positive t) : option (ptr * gmap positive t) :=
  match σ !! dm with
  | None => None
  | Some d =>
      let indexInternalID := IndexInternalID d in
      let sort := Sort d in
      let d := zero in
      match Slice.reslice indexInternalID 0, Slice.reslice sort 0 with
      | Some indexInternalID0, Some sort0 =>
          let d := set_IndexInternalID indexInternalID0 d in
          let d := set_Sort sort0 d in
          Some (dm, <[dm := d]> σ)
      | _, _ => None
      end
  end.

(** The body of [for k, v := range dm.Locations]. *)
Definition SizeInBytes_location (τ : gmap positive (gmap string (list Location.t)))
    (k : string) (v : TermLocationMap.t) (sizeInBytes : Z) : Z :=
  iadd sizeInBytes
    (iadd (iadd (len_string k) SizeOfString) (TermLocationMap.SizeInBytes v τ)).

(** The body of [for _, entry := range v] and of [for _, entry := range dm.Sort]. *)
Definition SizeInBytes_string (sizeInBytes : Z) (entry : string) : Z :=
  iadd sizeInBytes (iadd (len_string entry) SizeOfString).

(** The body of [for k, v := range dm.Fragments]. *)
Definition SizeInBytes_fragment (k : string) (v : list string) (sizeInBytes : Z) : Z :=
  let sizeInBytes :=
    iadd sizeInBytes (iadd (iadd (len_string k) SizeOfString) SizeOfSlice) in
  fold_left SizeInBytes_string v sizeInBytes.

(** The body of [for k, _ := range dm.Fields]. *)
Definition SizeInBytes_field (k : string) (v : interface) (sizeInBytes : Z) : Z :=
  iadd sizeInBytes (iadd (iadd (len_string k) SizeOfString) SizeOfInterface).

(** The right-hand side of the [+=] guarded by [dm.Document != nil]. *)
Definition SizeInBytes_document (doc : document.Document Field CompositeField) : Z :=
  iadd (iadd (iadd (iadd (HeapOverhead_at "Document")
                         (int (NumPlainTextBytes doc)))
                   (len_string (document.ID doc)))
             (imul (len (document.Fields doc)) SizeOfInterface))
       (imul (len (document.CompositeFields doc)) (HeapOverhead_at "CompositeFields")).

(** [func (dm *DocumentMatch) SizeInBytes() int], on the contents of the
    receiver; [τ] holds the term location maps. *)
Definition SizeInBytes (d : t) (τ : gmap positive (gmap string (list Location.t))) : Z :=
  let sizeInBytes :=
    iadd (iadd (iadd (HeapOverhead_at "DocumentMatch") (len_string (Index d)))
               (len_string (ID d)))
         (Z.of_nat (Slice.len (IndexInternalID d))) in
  (* Expl *)
  let sizeInBytes :=
    match Expl d with
    | Some expl => iadd sizeInBytes (Explanation_SizeInBytes expl)
    | None => sizeInBytes
    end in
  (* Locations *)
  let sizeInBytes :=
    map_fold (SizeInBytes_location τ) sizeInBytes (range (Locations d)) in
  (* Fragments *)
  let sizeInBytes :=
    map_fold SizeInBytes_fragment sizeInBytes (range (Fragments d)) in
  (* Sort *)
  let sizeInBytes :=
    fold_left SizeInBytes_string (Slice.elems (Sort d)) sizeInBytes in
  (* Fields *)
  let sizeInBytes :=
    map_fold SizeInBytes_field sizeInBytes (range (Fields d)) in
  (* Document *)
  let sizeInBytes :=
    match Document d with
    | Some doc => iadd sizeInBytes (SizeInBytes_document doc)
    | None => sizeInBytes
    end in
  sizeInBytes.

(** *** The record written by [encoding/json]

    The encoder writes one key for each field of the struct, as the tag of
    the field says. What follows gives the keys of the record it writes for a
    match; how it renders the values, and the scores it refuses (NaN and the
    infinities), are outside the model.

    The struct tags, in the order of the declaration. *)
Inductive field : Type :=
| FIndex | FID | FIndexInternalID | FScore | FExpl | FLocations | FFragments
| FSort | FFields | FDocument | FHitNumber.

Definition fields : list field :=
  [FIndex; FID; FIndexInternalID; FScore; FExpl; FLocations; FFragments;
   FSort; FFields; FDocument; FHitNumber].

(** A tag [json:"key"], [json:"key,omitempty"] or [json:"-"]. *)
Inductive tag : Type :=
| Key (key : string) (omitempty : bool)
| Dash.

Definition tag_of (f : field) : tag :=
  match f with
  | FIndex => Key "index" true
  | FID => Key "id" false
  | FIndexInternalID => Dash
  | FScore => Key "score" false
  | FExpl => Key "explanation" true
  | FLocations => Key "locations" true
  | FFragments => Key "fragments" true
  | FSort => Key "sort" true
  | FFields => Key "fields" true
  | FDocument => Dash
  | FHitNumber => Dash
  end.

(** The empty values of [omitempty]: zero, the empty string, a nil pointer,
    and a slice or map of length zero. *)
Definition is_empty (f : field) (d : t) : bool :=
  match f with
  | FIndex => bool_decide (Index d = "")
  | FID => bool_decide (ID d = "")
  | FIndexInternalID => bool_decide (Slice.len (IndexInternalID d) = 0%nat)
  | FScore => float64_eq (Score d) (S754_zero false)
  | FExpl => is_nil (Expl d)
  | FLocations => bool_decide (size (range (Locations d)) = 0%nat)
  | FFragments => bool_decide (size (range (Fragments d)) = 0%nat)
  | FSort => bool_decide (Slice.len (Sort d) = 0%nat)
  | FFields => bool_decide (size (range (Fields d)) = 0%nat)
  | FDocument => is_nil (Document d)
  | FHitNumber => bool_decide (HitNumber d = 0)
  end.

(** The key a field contributes to the serialized record, if any. *)
Definition json_key (d : t) (f : field) : option string :=
  match tag_of f with
  | Dash => None
  | Key key omitempty =>
      if omitempty && is_empty f d then None else Some key
  end.

(** The keys of the serialized record, in order. *)
Definition json_keys (d : t) : list string := omap (json_key d) fields.

End DocumentMatch.
End DocumentMatch.

(** ** Collections of document matches *)

Module DocumentMatchCollection.

(** [type DocumentMatchCollection []*DocumentMatch]: each entry is nil or
    the match it points to. *)
Abbreviation t := (list (option DocumentMatch.t)).

Section DocumentMatchCollection.
Context `{Platform} `{Collaborators}.

(** [c[i]] for an [int] index; [None] is the panic of an index out of range. *)
Definition index (c : t) (i : Z) : option (option DocumentMatch.t) :=
  if decide (0 ≤ i) then c !! Z.to_nat i else None.

(** [func (c DocumentMatchCollection) Len() int] *)
Definition Len (c : t) : Z := len c.

(** [func (c DocumentMatchCollection) Swap(i, j int)] *)
Definition Swap (c : t) (i j : Z) : option t :=
  match index c i, index c j with
  | Some ci, Some cj => Some (<[Z.to_nat j := ci]> (<[Z.to_nat i := cj]> c))
  | _, _ => None
  end.

(** [func (c DocumentMatchCollection) Less(i, j int) bool]; [None] is the
    panic of an index out of range or of reading [Score] through nil. *)
Definition Less (c : t) (i j : Z) : option bool :=
  match index c i, index c j with
  | Some (Some ci), Some (Some cj) =>
      Some (float64_gt (DocumentMatch.Score ci) (DocumentMatch.Score cj))
  | _, _ => None
  end.

(** The body of [for _, entry := range c]. *)
Definition SizeInBytes_entry (τ : gmap positive (gmap string Locations))
    (sizeInBytes : Z) (entry : option DocumentMatch.t) : Z :=
  match entry with
  | Some entry => iadd sizeInBytes (DocumentMatch.SizeInBytes entry τ)
  | None => sizeInBytes
  end.

(** [func (c DocumentMatchCollection) SizeInBytes() int] *)
Definition SizeInBytes (c : t) (τ : gmap positive (gmap string Locations)) : Z :=
  let sizeInBytes := HeapOverhead_at "DocumentMatchCollection" in
  fold_left (SizeInBytes_entry τ) c sizeInBytes.

End DocumentMatchCollection.
End DocumentMatchCollection.

(** ** Quantities used in the statements *)

(** The bytes a run of [Add] calls sends to tracker [m]. *)
Definition sent_to (m : MemTracker.ptr) (calls : list (MemTracker.ptr * Z)) : Z :=
  foldr (λ call acc, if decide (call.1 = m) then call.2 + acc else acc) 0 calls.



(** The keys of the external record of a match. *)
Definition external_keys : list string :=
  ["index"; "id"; "score"; "explanation"; "locations"; "fragments"; "sort"; "fields"].

(** Sums in [Z], with no reduction: of the values of a function over a list
    and over the entries of a map. *)
Definition lsum {A} (f : A → Z) (l : list A) : Z :=
  foldr (λ x acc, f x + acc) 0 l.
Definition msum {A} (f : string → A → Z) (m : gmap string A) : Z :=
  map_fold (λ k v acc, f k v + acc) 0 m.

Section Totals.
Context `{Platform} `{Collaborators}.

(** What one [Location] adds to a size. *)
Definition Location_total (l : Location.t) : Z :=
  HeapOverhead_at "Location" + len (Location.ArrayPositions l) * SizeOfUint64.

(** What one term with its locations adds to the size of its map. *)
Definition term_total (k : string) (v : list Location.t) : Z :=
  len_string k + SizeOfString + SizeOfSlice + lsum Location_total v.



(** The parts of the size of a match. *)
Definition location_total (τ : gmap positive (gmap string (list Location.t)))
    (k : string) (v : TermLocationMap.t) : Z :=
  len_string k + SizeOfString + TermLocationMap.SizeInBytes v τ.
Definition string_total (entry : string) : Z := len_string entry + SizeOfString.
Definition fragment_total (k : string) (v : list string) : Z :=
  len_string k + SizeOfString + SizeOfSlice + lsum string_total v.
Definition field_total (k : string) (v : interface) : Z :=
  len_string k + SizeOfString + SizeOfInterface.
Definition Expl_total (expl : option Explanation) : Z :=
  match expl with
  | Some expl => Explanation_SizeInBytes expl
  | None => 0
  end.
(** The part of an attached document, with nothing for its composite
    fields. *)
Definition Document_total (doc : option (document.Document Field CompositeField)) : Z :=
  match doc with
  | Some doc =>
      HeapOverhead_at "Document" + NumPlainTextBytes doc +
      len_string (document.ID doc) +
      len (document.Fields doc) * SizeOfInterface
  | None => 0
  end.

(** The size of a match as the sum of its parts. *)
Definition DocumentMatch_total (d : DocumentMatch.t)
    (τ : gmap positive (gmap string (list Location.t))) : Z :=
  HeapOverhead_at "DocumentMatch" +
  len_string (DocumentMatch.Index d) + len_string (DocumentMatch.ID d) +
  Z.of_nat (Slice.len (DocumentMatch.IndexInternalID d)) +
  Expl_total (DocumentMatch.Expl d) +
  msum (location_total τ) (range (DocumentMatch.Locations d)) +
  msum fragment_total (range (DocumentMatch.Fragments d)) +
  lsum string_total (Slice.elems (DocumentMatch.Sort d)) +
  msum field_total (range (DocumentMatch.Fields d)) +
  Document_total (DocumentMatch.Document d).

(** The size the documentation of the package describes: as above, and the
    overhead of a [CompositeField] for each composite field of the
    document. *)
Definition DocumentMatch_total_documented (d : DocumentMatch.t)
    (τ : gmap positive (gmap string (list Location.t))) : Z :=
  DocumentMatch_total d τ +
  match DocumentMatch.Document d with
  | Some doc => len (document.CompositeFields doc) * HeapOverhead_at "CompositeField"
  | None => 0
  end.

(** The non-nil entries of a collection. *)
Definition non_nil (c : list (option DocumentMatch.t)) : list DocumentMatch.t :=
  omap id c.

End Totals.

(** ** Runs and visits used in further statements *)

(** The loop of [TermLocationMap.SizeInBytes] run over the entries of a map
    in the order [visit]. *)
Definition SizeInBytes_visiting `{Platform}
    (visit : list (string * list Location.t)) : Z :=
  fold_left
    (λ sizeInBytes kv, TermLocationMap.SizeInBytes_entry kv.1 kv.2 sizeInBytes)
    visit (HeapOverhead_at "TermLocationMap").


(** The keys [init] stores. *)
Definition overhead_keys : list string :=
  ["SearchContext"; "DocumentMatchPool"; "DocumentMatchCollection";
   "DocumentMatch"; "TermLocationMap"; "Location"; "Document";
   "CompositeField"; "SearcherOptions"].

(** The body of [DocumentMatch.SizeInBytes] with its three loops over maps
    run in the orders [locations], [fragments] and [fields]. *)
Definition DocumentMatch_SizeInBytes_visiting `{Platform} `{Collaborators}
    (locations : list (string * TermLocationMap.t))
    (fragments : list (string * list string))
    (fields : list (string * interface))
    (d : DocumentMatch.t)
    (τ : gmap positive (gmap string (list Location.t))) : Z :=
  let sizeInBytes :=
    iadd (iadd (iadd (HeapOverhead_at "DocumentMatch")
                     (len_string (DocumentMatch.Index d)))
               (len_string (DocumentMatch.ID d)))
         (Z.of_nat (Slice.len (DocumentMatch.IndexInternalID d))) in
  let sizeInBytes :=
    match DocumentMatch.Expl d with
    | Some expl => iadd sizeInBytes (Explanation_SizeInBytes expl)
    | None => sizeInBytes
    end in
  let sizeInBytes :=
    fold_left (λ sizeInBytes kv,
                 DocumentMatch.SizeInBytes_location τ kv.1 kv.2 sizeInBytes)
      locations sizeInBytes in
  let sizeInBytes :=
    fold_left (λ sizeInBytes kv,
                 DocumentMatch.SizeInBytes_fragment kv.1 kv.2 sizeInBytes)
      fragments sizeInBytes in
  let sizeInBytes :=
    fold_left DocumentMatch.SizeInBytes_string
      (Slice.elems (DocumentMatch.Sort d)) sizeInBytes in
  let sizeInBytes :=
    fold_left (λ sizeInBytes kv,
                 DocumentMatch.SizeInBytes_field kv.1 kv.2 sizeInBytes)
      fields sizeInBytes in
  let sizeInBytes :=
    match DocumentMatch.Document d with
    | Some doc => iadd sizeInBytes (DocumentMatch.SizeInBytes_document doc)
    | None => sizeInBytes
    end in
  sizeInBytes.

(** * Properties *)

(** ** Machine integers *)

Lemma uint64_modulus_pos : 0 < uint64_modulus.
Proof. reflexivity. Qed.

Lemma uint64_range n : is_uint64 (uint64 n).
Proof.
  unfold is_uint64, uint64, MaxUint64.
  pose proof (Z.mod_pos_bound n uint64_modulus uint64_modulus_pos). lia.
Qed.

Lemma uint64_small n : is_uint64 n → uint64 n = n.
Proof.
  unfold is_uint64, uint64, MaxUint64. intros ?.
  apply Z.mod_small. lia.
Qed.

Lemma uint64_add_uint64_l a b : uint64_add (uint64 a) b = uint64 (a + b).
Proof. unfold uint64_add, uint64. apply Zplus_mod_idemp_l. Qed.

(** ** The memory tracker *)

Module MemTrackerFacts.
Import MemTracker.

Lemma NewMemTracker_fresh (σ : gmap positive t) :
  σ !! (NewMemTracker σ).1 = None.
Proof.
  unfold NewMemTracker; simpl.
  apply not_elem_of_dom. apply is_fresh.
Qed.

Lemma NewMemTracker_usage (σ : gmap positive t) :
  Usage (NewMemTracker σ).1 (NewMemTracker σ).2 = Some 0.
Proof. unfold Usage, NewMemTracker; simpl. by rewrite lookup_insert_eq. Qed.

Lemma NewMemTracker_other (σ : gmap positive t) m u :
  Usage m σ = Some u → Usage m (NewMemTracker σ).2 = Some u.
Proof.
  unfold Usage. destruct (σ !! m) as [r|] eqn:Hm; [|done].
  intros ?. unfold NewMemTracker; simpl.
  rewrite lookup_insert_ne; [by rewrite Hm|].
  intros <-. pose proof (NewMemTracker_fresh σ) as Hf.
  unfold NewMemTracker in Hf; simpl in Hf. congruence.
Qed.

Lemma Add_live (σ : gmap positive t) m n u :
  Usage m σ = Some u →
  Add m n σ = Some (<[m := {| bytes := uint64_add u n |}]> σ).
Proof.
  unfold Usage, Add. destruct (σ !! m); [|done]. by intros [= ->].
Qed.

Lemma Add_usage_same (σ σ' : gmap positive t) m n u :
  Usage m σ = Some u → Add m n σ = Some σ' →
  Usage m σ' = Some (uint64_add u n).
Proof.
  intros Hu. rewrite (Add_live _ _ _ _ Hu). intros [= <-].
  unfold Usage. by rewrite lookup_insert_eq.
Qed.

Lemma Add_usage_other (σ σ' : gmap positive t) m m' n :
  m' ≠ m → Add m n σ = Some σ' → Usage m' σ' = Usage m' σ.
Proof.
  intros Hne. unfold Add. destruct (σ !! m); [|done]. intros [= <-].
  unfold Usage. by rewrite lookup_insert_ne.
Qed.

Lemma Add_is_Some (σ : gmap positive t) m n :
  is_Some (σ !! m) → is_Some (Add m n σ).
Proof. intros [r Hr]. unfold Add. rewrite Hr. eauto. Qed.

Lemma sent_to_cons m m0 n calls :
  sent_to m ((m0, n) :: calls) =
  if decide (m0 = m) then n + sent_to m calls else sent_to m calls.
Proof. reflexivity. Qed.

Lemma AddAll_usage calls : ∀ (σ σ' : gmap positive t) m u,
  is_uint64 u → Usage m σ = Some u → AddAll calls σ = Some σ' →
  Usage m σ' = Some (uint64 (u + sent_to m calls)).
Proof.
  induction calls as [|[m0 n] calls IH]; intros σ σ' m u Hr Hu; cbn [AddAll].
  - intros [= <-]. unfold sent_to; simpl. by rewrite Hu, Z.add_0_r, uint64_small.
  - destruct (Add m0 n σ) as [σ1|] eqn:Hadd; [|done]. intros Hrest.
    destruct (decide (m0 = m)) as [->|Hne].
    + rewrite (IH σ1 σ' m (uint64_add u n)); eauto using Add_usage_same.
      * rewrite sent_to_cons, decide_True by done.
        unfold uint64_add, uint64.
        rewrite Zplus_mod_idemp_l. f_equal. f_equal. lia.
      * apply uint64_range.
    + rewrite sent_to_cons, decide_False by done.
      apply (IH σ1 σ' m u); [done| |done].
      by rewrite (Add_usage_other σ σ1 m0 m n).
Qed.

Lemma step_usage (σ σ' : gmap positive t) m u :
  step σ σ' → Usage m σ = Some u →
  ∃ u', Usage m σ' = Some u' ∧
        (u' = u ∨ ∃ n, is_uint64 n ∧ u' = uint64_add u n).
Proof.
  intros [σ0|σ0 m0 n σ1 Hn Hadd] Hu.
  - exists u. split; [by apply NewMemTracker_other | by left].
  - destruct (decide (m = m0)) as [->|Hne].
    + exists (uint64_add u n). split; [by eapply Add_usage_same | right; eauto].
    + exists u. split; [by rewrite (Add_usage_other _ _ _ _ _ Hne Hadd) | by left].
Qed.

Lemma reachable_uint64 (σ : gmap positive t) m u :
  reachable σ → Usage m σ = Some u → is_uint64 u.
Proof.
  unfold reachable. intros Hr. revert m u. revert σ Hr.
  apply (rtc_ind_r (λ σ, ∀ m u, Usage m σ = Some u → is_uint64 u) ∅).
  - intros m u. unfold Usage. by rewrite lookup_empty.
  - intros σ1 σ2 Hr Hstep IH m u. destruct Hstep as [σ0|σ0 m0 n σ1 Hn Hadd].
    + unfold Usage, NewMemTracker; simpl.
      destruct (decide (fresh (dom σ0) = m)) as [<-|Hne].
      * rewrite lookup_insert_eq. intros [= <-]. unfold is_uint64, MaxUint64. done.
      * rewrite lookup_insert_ne by done. apply IH.
    + destruct (decide (m = m0)) as [->|Hne].
      * unfold Add in Hadd. destruct (σ0 !! m0) as [r|] eqn:Hm0; [|done].
        injection Hadd as <-. unfold Usage. rewrite lookup_insert_eq.
        intros [= <-]. apply uint64_range.
      * rewrite (Add_usage_other _ _ _ _ _ Hne Hadd). apply IH.
Qed.

(** C3 as stated fails: after [Add(2^64-1)], [Add(1)], [Add(0)] on a new
    tracker [Usage()] is 0, and the three amounts add up to [2^64]. *)
Lemma MemTracker_usage_sum_overflow :
  let a := 18446744073709551615 in
  let b := 1 in
  let c := 0 in
  let m := (NewMemTracker ∅).1 in
  let σ := (NewMemTracker ∅).2 in
  is_uint64 a ∧ is_uint64 b ∧ is_uint64 c ∧
  AddAll [(m, a); (m, b); (m, c)] σ ≫= Usage m = Some 0 ∧
  Some 0 ≠ Some (a + b + c).
Proof. vm_compute. repeat split; congruence. Qed.

(** C3, amended: on a tracker just created, [Add(a)], [Add(b)], [Add(c)]
    all succeed and leave [Usage()] at [a+b+c] reduced modulo [2^64], which
    is [a+b+c] itself when that sum is below [2^64]; the usage of every
    other tracker is what it was; the same holds when the calls are
    interleaved in any order with calls on other trackers; and [Add] on a
    live tracker always succeeds. *)
Theorem MemTracker_usage_sum (σ : gmap positive t) (a b c : Z) :
  let m := (NewMemTracker σ).1 in
  let σ0 := (NewMemTracker σ).2 in
  (∃ σ3, AddAll [(m, a); (m, b); (m, c)] σ0 = Some σ3 ∧
         Usage m σ3 = Some (uint64 (a + b + c)) ∧
         (is_uint64 (a + b + c) → Usage m σ3 = Some (a + b + c)) ∧
         (∀ m', m' ≠ m → Usage m' σ3 = Usage m' σ0)) ∧
  (∀ calls σ', AddAll calls σ0 = Some σ' →
               Usage m σ' = Some (uint64 (sent_to m calls))) ∧
  (∀ σ1 m1 n, is_Some (σ1 !! m1) → is_Some (Add m1 n σ1)).
Proof.
  intros m σ0.
  assert (Hu0 : Usage m σ0 = Some 0) by apply NewMemTracker_usage.
  assert (H0 : is_uint64 0) by (unfold is_uint64, MaxUint64; done).
  split; [|split].
  - simpl.
    rewrite (Add_live _ _ a _ Hu0).
    set (σ1 := <[m := _]> σ0).
    assert (Hu1 : Usage m σ1 = Some (uint64_add 0 a))
      by (unfold Usage, σ1; by rewrite lookup_insert_eq).
    rewrite (Add_live _ _ b _ Hu1).
    set (σ2 := <[m := _]> σ1).
    assert (Hu2 : Usage m σ2 = Some (uint64_add (uint64_add 0 a) b))
      by (unfold Usage, σ2; by rewrite lookup_insert_eq).
    rewrite (Add_live _ _ c _ Hu2).
    eexists. split; [reflexivity|].
    assert (Hfinal : uint64_add (uint64_add (uint64_add 0 a) b) c = uint64 (a + b + c)).
    { unfold uint64_add, uint64. rewrite Z.add_0_l, !Zplus_mod_idemp_l.
      by rewrite <-(Z.add_assoc _ b c), Zplus_mod_idemp_l, Z.add_assoc. }
    split; [|split].
    + unfold Usage. by rewrite lookup_insert_eq, <-Hfinal.
    + intros Hr. unfold Usage. rewrite lookup_insert_eq; simpl.
      by rewrite Hfinal, uint64_small.
    + intros m' Hne. unfold Usage, σ2, σ1.
      by rewrite !lookup_insert_ne.
  - intros calls σ' Hrun.
    by rewrite (AddAll_usage calls σ0 σ' m 0 H0 Hu0 Hrun).
  - intros σ1 m1 n. apply Add_is_Some.
Qed.

(** C6 as stated fails: a tracker that has reached [2^64-1] reports 0 after
    [Add(1)]. *)
Lemma MemTracker_Add_wraps :
  let m := (NewMemTracker ∅).1 in
  ∃ σ, reachable σ ∧ is_uint64 1 ∧
       Usage m σ = Some 18446744073709551615 ∧
       Add m 1 σ ≫= Usage m = Some 0 ∧
       0 < 18446744073709551615.
Proof.
  intros m.
  exists (<[m := {| bytes := 18446744073709551615 |}]> (NewMemTracker ∅).2).
  split; [|by vm_compute].
  eapply rtc_l; [apply (step_new ∅)|].
  apply rtc_once. apply (step_add _ m 18446744073709551615); by vm_compute.
Qed.

(** C6, amended: in every reachable state, [Add(n)] on a live tracker
    succeeds and leaves [Usage()] at the old usage plus [n] reduced modulo
    [2^64]; when the old usage plus [n] is below [2^64] the new usage is
    that sum, which is at least the old usage. No operation on the store
    changes a usage in another way than by such an addition. *)
Theorem MemTracker_Add_usage (σ : gmap positive t) (m : ptr) (n u : Z) :
  reachable σ → is_uint64 n → Usage m σ = Some u →
  (∃ σ', Add m n σ = Some σ' ∧
         Usage m σ' = Some (uint64 (u + n)) ∧
         (u + n ≤ MaxUint64 → Usage m σ' = Some (u + n) ∧ u ≤ u + n)) ∧
  (∀ σ', step σ σ' →
         ∃ u', Usage m σ' = Some u' ∧
               (u' = u ∨ ∃ n', is_uint64 n' ∧ u' = uint64 (u + n'))).
Proof.
  intros Hr Hn Hu. split.
  - rewrite (Add_live _ _ n _ Hu). eexists. split; [reflexivity|].
    unfold Usage. rewrite lookup_insert_eq. split; [done|].
    intros Hle. pose proof (reachable_uint64 _ _ _ Hr Hu) as Hur.
    unfold uint64_add. rewrite uint64_small; [|unfold is_uint64 in *; lia].
    split; [done|unfold is_uint64 in *; lia].
  - intros σ' Hstep. exact (step_usage σ σ' m u Hstep Hu).
Qed.

(** [Add(5)] on the first tracker of a program. *)
Lemma MemTracker_Add_usage_witness :
  let m := (NewMemTracker ∅).1 in
  let σ := (NewMemTracker ∅).2 in
  (∃ σ', Add m 5 σ = Some σ' ∧
         Usage m σ' = Some (uint64 (0 + 5)) ∧
         (0 + 5 ≤ MaxUint64 → Usage m σ' = Some (0 + 5) ∧ 0 ≤ 0 + 5)) ∧
  (∀ σ', step σ σ' →
         ∃ u', Usage m σ' = Some u' ∧
               (u' = 0 ∨ ∃ n', is_uint64 n' ∧ u' = uint64 (0 + n'))).
Proof.
  intros m σ.
  apply (MemTracker_Add_usage σ m 5 0).
  - apply rtc_once. apply (step_new ∅).
  - unfold is_uint64, MaxUint64. vm_compute. split; congruence.
  - reflexivity.
Defined.

End MemTrackerFacts.

(** ** Array positions *)

Module ArrayPositionsFacts.
Import ArrayPositions.

(** The loop answers for the indices it is given, as long as they are within
    both sequences. *)
Lemma Equals_loop_spec (ap other : list Z) (indices : list nat) :
  (∀ i, i ∈ indices → (i < length ap)%nat ∧ (i < length other)%nat) →
  ∃ r, Equals_loop ap other indices = Some r ∧
       (r = true ↔ ∀ i, i ∈ indices → ap !! i = other !! i).
Proof.
  induction indices as [|i rest IH]; intros Hin; cbn [Equals_loop].
  - exists true. split; [done|]. split; [|done]. intros _ i Hi. by apply elem_of_nil in Hi.
  - destruct (Hin i) as [Ha Hb]; [by left|].
    destruct (lookup_lt_is_Some_2 ap i Ha) as [x Hx].
    destruct (lookup_lt_is_Some_2 other i Hb) as [y Hy].
    rewrite Hx, Hy. case_bool_decide as Hxy.
    + exists false. split; [done|]. split; [done|].
      intros Hall. specialize (Hall i). rewrite Hx, Hy in Hall.
      exfalso. apply Hxy. assert (Some x = Some y) as [= ->]; [|done].
      apply Hall. by left.
    + destruct IH as (r & Hr & Hiff).
      { intros j Hj. apply Hin. by right. }
      exists r. split; [done|]. rewrite Hiff. split.
      * intros Hall j [->|Hj]%elem_of_cons; [|by apply Hall].
        rewrite Hx, Hy. f_equal. by destruct (decide (x = y)).
      * intros Hall j Hj. apply Hall. by right.
Qed.

(** C9: [Equals] always answers; it answers true exactly when the two
    sequences have the same length and the same element at every index,
    that is, when they are equal; it is reflexive and symmetric. *)
Theorem Equals_spec (a b : list Z) :
  (∃ r, Equals a b = Some r) ∧
  (Equals a b = Some true ↔
     length a = length b ∧ ∀ i, (i < length a)%nat → a !! i = b !! i) ∧
  (Equals a b = Some true ↔ a = b) ∧
  Equals a a = Some true ∧
  Equals a b = Equals b a.
Proof.
  assert (Hspec : ∀ a b : list Z,
    (∃ r, Equals a b = Some r) ∧
    (Equals a b = Some true ↔
       length a = length b ∧ ∀ i, (i < length a)%nat → a !! i = b !! i)).
  { clear. intros a b. unfold Equals. case_bool_decide as Hlen.
    - split; [eauto|]. split; [done|]. intros [? _]. done.
    - assert (Hlen' : length a = length b) by (by destruct (decide (length a = length b))).
      destruct (Equals_loop_spec a b (seq 0 (length a))) as (r & Hr & Hiff).
      { intros i Hi%elem_of_seq. lia. }
      rewrite Hr. split; [eauto|]. split.
      + intros [= ->]. split; [done|]. intros i Hi. apply Hiff; [done|].
        apply elem_of_seq. lia.
      + intros [_ Hall]. f_equal. apply Hiff. intros i Hi%elem_of_seq.
        apply Hall. lia. }
  assert (Heq : ∀ a b : list Z, Equals a b = Some true ↔ a = b).
  { intros a' b'. destruct (Hspec a' b') as [_ ->]. split.
    - intros [Hlen Hall]. apply list_eq. intros i.
      destruct (decide (i < length a')%nat) as [Hi|Hi]; [by apply Hall|].
      rewrite !lookup_ge_None_2; [done|lia..].
    - by intros ->. }
  destruct (Hspec a b) as [Htot Hiff].
  split; [done|]. split; [done|]. split; [done|]. split; [by apply Heq|].
  destruct Htot as [r Hr]. destruct (Hspec b a) as [[r' Hr'] _].
  rewrite Hr, Hr'. f_equal.
  destruct r, r'; try done.
  - apply Heq in Hr. symmetry in Hr. apply Heq in Hr. congruence.
  - apply Heq in Hr'. symmetry in Hr'. apply Heq in Hr'. congruence.
Qed.

End ArrayPositionsFacts.

(** ** Comparison of scores *)




(** ** Collections: the order *)

Module LessFacts.
Section LessFacts.
Context `{Collaborators}.
Import DocumentMatchCollection.


End LessFacts.


End LessFacts.

(** ** Document matches: reuse and field values *)

Module DocumentMatchFacts.
Section DocumentMatchFacts.
Context `{Collaborators}.
Import DocumentMatch.

(** C1: [Reset] on a live match returns the pointer it was called on and
    leaves the match with every field at its zero value, except that the
    [IndexInternalID] and [Sort] slices keep their backing arrays, and so
    their capacities, with length 0. No other match of the store changes. *)
Theorem Reset_spec (σ : gmap positive t) (dm : ptr) (d : t) :
  σ !! dm = Some d →
  ∃ d', Reset dm σ = Some (dm, <[dm := d']> σ) ∧
        Index d' = "" ∧ ID d' = "" ∧ Score d' = S754_zero false ∧
        Expl d' = None ∧ Locations d' = None ∧ Fragments d' = None ∧
        Fields d' = None ∧ Document d' = None ∧ HitNumber d' = 0 ∧
        Slice.len (IndexInternalID d') = 0%nat ∧
        Slice.array (IndexInternalID d') = Slice.array (IndexInternalID d) ∧
        Slice.cap (IndexInternalID d') = Slice.cap (IndexInternalID d) ∧
        Slice.len (Sort d') = 0%nat ∧
        Slice.array (Sort d') = Slice.array (Sort d) ∧
        Slice.cap (Sort d') = Slice.cap (Sort d).
Proof.
  intros Hd. unfold Reset. rewrite Hd.
  unfold Slice.reslice. rewrite !decide_True by lia.
  eexists. split; [reflexivity|]. simpl. repeat split.
Qed.

(** One call of [AddFieldValue], by the three cases of the code. *)
Lemma AddFieldValue_step (σ : gmap positive t) (dm : ptr) (d : t)
    (name : string) (value : interface) :
  σ !! dm = Some d →
  ∃ d', AddFieldValue dm name value σ = Some (<[dm := d']> σ) ∧
        (range (Fields d) !! name = None →
         range (Fields d') !! name = Some value) ∧
        (∀ e, range (Fields d) !! name = Some e → as_slice e = None →
              range (Fields d') !! name = Some (ISlice [e; value])) ∧
        (∀ l, range (Fields d) !! name = Some (ISlice l) →
              range (Fields d') !! name = Some (ISlice (l ++ [value]))) ∧
        (∀ name', name' ≠ name →
                  range (Fields d') !! name' = range (Fields d) !! name') ∧
        d' = set_Fields (Fields d') d.
Proof.
  intros Hd. unfold AddFieldValue. rewrite Hd.
  assert (Hrange : match Fields d with Some fields => fields | None => ∅ end
                   = range (Fields d)) by done.
  rewrite Hrange. clear Hrange.
  destruct (range (Fields d) !! name) as [e|] eqn:He.
  - eexists. split; [reflexivity|]. simpl. unfold range at 1 3 5; simpl.
    split; [done|]. split; [|split; [|split; [|done]]].
    + intros e' [= <-] Hns. by rewrite Hns, lookup_insert_eq.
    + intros l [= ->]. simpl. by rewrite lookup_insert_eq.
    + intros name' Hne. by rewrite lookup_insert_ne.
  - eexists. split; [reflexivity|]. simpl. unfold range at 1 3 5; simpl.
    split; [by rewrite lookup_insert_eq|]. split; [done|]. split; [done|].
    split; [|done]. intros name' Hne. by rewrite lookup_insert_ne.
Qed.


End DocumentMatchFacts.
End DocumentMatchFacts.

(** ** Document matches: the serialized record *)

Module JsonFacts.
Section JsonFacts.
Context `{Collaborators}.
Import DocumentMatch.

(** The keys, field by field. *)
Lemma json_keys_unfold (d : t) :
  json_keys d =
    (if is_empty FIndex d then [] else ["index"]) ++
    ["id"; "score"] ++
    (if is_empty FExpl d then [] else ["explanation"]) ++
    (if is_empty FLocations d then [] else ["locations"]) ++
    (if is_empty FFragments d then [] else ["fragments"]) ++
    (if is_empty FSort d then [] else ["sort"]) ++
    (if is_empty FFields d then [] else ["fields"]).
Proof.
  unfold json_keys, fields, json_key; cbn [omap list_omap tag_of andb].
  destruct (is_empty FIndex d), (is_empty FExpl d), (is_empty FLocations d),
    (is_empty FFragments d), (is_empty FSort d), (is_empty FFields d);
    reflexivity.
Qed.

Lemma size_range_empty {A} (m : option (gmap string A)) :
  size (range m) = 0%nat ↔ range m = ∅.
Proof. apply map_size_empty_iff. Qed.

Lemma elem_of_optional_key (b : bool) (key k : string) :
  key ∈ (if b then [] else [k]) ↔ key = k ∧ b = false.
Proof.
  destruct b.
  - rewrite elem_of_nil. split; [done|]. by intros [_ ?].
  - rewrite list_elem_of_singleton. split; [done|]. by intros [? _].
Qed.

Lemma elem_of_json_keys (d : t) (key : string) :
  key ∈ json_keys d ↔
    key = "index" ∧ is_empty FIndex d = false ∨
    key = "id" ∨ key = "score" ∨
    key = "explanation" ∧ is_empty FExpl d = false ∨
    key = "locations" ∧ is_empty FLocations d = false ∨
    key = "fragments" ∧ is_empty FFragments d = false ∨
    key = "sort" ∧ is_empty FSort d = false ∨
    key = "fields" ∧ is_empty FFields d = false.
Proof.
  rewrite (json_keys_unfold d).
  rewrite !elem_of_app, !elem_of_optional_key, !elem_of_cons, elem_of_nil.
  tauto.
Qed.

Lemma is_nil_false {A} (p : option A) : is_nil p = false ↔ p ≠ None.
Proof. by destruct p. Qed.

Lemma bool_decide_false_iff (P : Prop) `{Decision P} :
  bool_decide P = false ↔ ¬ P.
Proof. apply bool_decide_eq_false. Qed.

(** C8: the serialized record of a match has its keys among [index], [id],
    [score], [explanation], [locations], [fragments], [sort] and [fields],
    each at most once; [id] and [score] are always there; each of the other
    six is there exactly when its field is not empty; and nothing is written
    for [IndexInternalID], [Document] and [HitNumber], whatever they hold. *)
Theorem json_keys_spec (d : t) :
  (∀ key, key ∈ json_keys d → key ∈ external_keys) ∧
  NoDup (json_keys d) ∧
  "id" ∈ json_keys d ∧
  "score" ∈ json_keys d ∧
  ("index" ∈ json_keys d ↔ Index d ≠ "") ∧
  ("explanation" ∈ json_keys d ↔ Expl d ≠ None) ∧
  ("locations" ∈ json_keys d ↔ range (Locations d) ≠ ∅) ∧
  ("fragments" ∈ json_keys d ↔ range (Fragments d) ≠ ∅) ∧
  ("sort" ∈ json_keys d ↔ Slice.len (Sort d) ≠ 0%nat) ∧
  ("fields" ∈ json_keys d ↔ range (Fields d) ≠ ∅) ∧
  (∀ d', Index d' = Index d → ID d' = ID d → Score d' = Score d →
         Expl d' = Expl d → Locations d' = Locations d →
         Fragments d' = Fragments d → Sort d' = Sort d → Fields d' = Fields d →
         json_keys d' = json_keys d).
Proof.
  split; [|split].
  { intros key. rewrite elem_of_json_keys. unfold external_keys.
    rewrite !elem_of_cons, elem_of_nil. tauto. }
  { rewrite (json_keys_unfold d).
    destruct (is_empty FIndex d), (is_empty FExpl d), (is_empty FLocations d),
      (is_empty FFragments d), (is_empty FSort d), (is_empty FFields d);
      cbn [app]; apply (bool_decide_unpack _); vm_compute; exact I. }
  rewrite !elem_of_json_keys. cbn [is_empty].
  rewrite !bool_decide_false_iff, is_nil_false, !size_range_empty.
  split; [intuition congruence|]. split; [intuition congruence|].
  split; [intuition congruence|]. split; [intuition congruence|].
  split; [intuition congruence|]. split; [intuition congruence|].
  split; [intuition congruence|]. split; [intuition congruence|].
  intros d' HI HD HS HE HL HF HSo HFi.
  rewrite !json_keys_unfold. cbn [is_empty].
  by rewrite HI, HE, HL, HF, HSo, HFi.
Qed.

End JsonFacts.
End JsonFacts.

(** ** Arithmetic on [int] *)

Section IntFacts.
Context `{Platform}.

Lemma half_word : 2 ^ IntBits = 2 * 2 ^ (IntBits - 1) ∧ 2 ^ 31 ≤ 2 ^ (IntBits - 1).
Proof. destruct IntBits_word as [-> | ->]; by vm_compute. Qed.

Lemma wrap_range n : in_int IntBits (wrap IntBits n).
Proof.
  destruct half_word as [HM Hh]. unfold in_int, MinInt, MaxInt, wrap.
  pose proof (Z.mod_pos_bound (n + 2 ^ (IntBits - 1)) (2 ^ IntBits)). lia.
Qed.

Lemma wrap_small n : in_int IntBits n → wrap IntBits n = n.
Proof.
  destruct half_word as [HM Hh]. unfold in_int, MinInt, MaxInt, wrap. intros ?.
  rewrite Z.mod_small; lia.
Qed.

Lemma wrap_wrap n : wrap IntBits (wrap IntBits n) = wrap IntBits n.
Proof. apply wrap_small, wrap_range. Qed.

Lemma wrap_add_l a b : wrap IntBits (wrap IntBits a + b) = wrap IntBits (a + b).
Proof.
  unfold wrap. f_equal.
  replace ((a + 2 ^ (IntBits - 1)) `mod` 2 ^ IntBits - 2 ^ (IntBits - 1) + b + 2 ^ (IntBits - 1))
    with ((a + 2 ^ (IntBits - 1)) `mod` 2 ^ IntBits + b) by lia.
  rewrite Zplus_mod_idemp_l. f_equal. lia.
Qed.

Lemma wrap_add_r a b : wrap IntBits (a + wrap IntBits b) = wrap IntBits (a + b).
Proof. by rewrite Z.add_comm, wrap_add_l, Z.add_comm. Qed.

Lemma wrap_mul_l a b : wrap IntBits (wrap IntBits a * b) = wrap IntBits (a * b).
Proof.
  destruct half_word as [HM Hh]. unfold wrap. f_equal.
  rewrite <-(Zplus_mod_idemp_l (_ * b)), <-(Zplus_mod_idemp_l (a * b)).
  f_equal. f_equal.
  rewrite <-Zmult_mod_idemp_l.
  replace (((a + 2 ^ (IntBits - 1)) `mod` 2 ^ IntBits - 2 ^ (IntBits - 1)) `mod` 2 ^ IntBits)
    with (a `mod` 2 ^ IntBits); [by rewrite Zmult_mod_idemp_l|].
  rewrite <-Zminus_mod_idemp_l, Zmod_mod, Zminus_mod_idemp_l. f_equal. lia.
Qed.

Lemma wrap_mul_r a b : wrap IntBits (a * wrap IntBits b) = wrap IntBits (a * b).
Proof. by rewrite Z.mul_comm, wrap_mul_l, Z.mul_comm. Qed.

Lemma iadd_wrap_l a b : iadd (wrap IntBits a) b = wrap IntBits (a + b).
Proof. apply wrap_add_l. Qed.

Lemma iadd_wrap_r a b : iadd a (wrap IntBits b) = wrap IntBits (a + b).
Proof. apply wrap_add_r. Qed.

(** Equality up to the reduction of [int]. Additions and multiplications
    respect it, so the reductions inside a reduced expression can be dropped. *)
Definition eqm (a b : Z) : Prop := wrap IntBits a = wrap IntBits b.

#[global] Instance eqm_equivalence : Equivalence eqm.
Proof.
  split.
  - by intros a.
  - by intros a b.
  - intros a b c. unfold eqm. congruence.
Qed.

#[global] Instance eqm_add : Proper (eqm ==> eqm ==> eqm) Z.add.
Proof.
  intros a a' Ha b b' Hb. unfold eqm in *.
  rewrite <-(wrap_add_l a), <-(wrap_add_r _ b), Ha, Hb.
  by rewrite wrap_add_l, wrap_add_r.
Qed.

#[global] Instance eqm_mul : Proper (eqm ==> eqm ==> eqm) Z.mul.
Proof.
  intros a a' Ha b b' Hb. unfold eqm in *.
  rewrite <-(wrap_mul_l a), <-(wrap_mul_r _ b), Ha, Hb.
  by rewrite wrap_mul_l, wrap_mul_r.
Qed.

#[global] Instance eqm_wrap : Proper (eqm ==> eq) (wrap IntBits).
Proof. by intros a b. Qed.

Lemma wrap_eqm a : eqm (wrap IntBits a) a.
Proof. unfold eqm. apply wrap_wrap. Qed.

Lemma iadd_eqm a b : eqm (iadd a b) (a + b).
Proof. apply wrap_eqm. Qed.

Lemma imul_eqm a b : eqm (imul a b) (a * b).
Proof. apply wrap_eqm. Qed.

Lemma int_eqm a : eqm (int a) a.
Proof. apply wrap_eqm. Qed.

Lemma eqm_of_eq a b : a = b → eqm a b.
Proof. by intros ->. Qed.


(** Sizes of the platform are far below the range of [int]. *)
Lemma small_in_int n : 0 ≤ n < 2 ^ 17 → in_int IntBits n.
Proof.
  destruct half_word as [HM Hh]. unfold in_int, MinInt, MaxInt.
  assert (2 ^ 17 < 2 ^ 31) by (by vm_compute). lia.
Qed.

Lemma int_TypeSize ty : int (TypeSize ty) = TypeSize ty.
Proof.
  apply wrap_small, small_in_int.
  pose proof (TypeSize_bounds ty). assert (2 ^ 16 < 2 ^ 17) by (by vm_compute). lia.
Qed.

Lemma overhead_with_pointer ty :
  iadd (int (TypeSize ty)) SizeOfPointer = TypeSize ty + SizeOfPointer ∧
  0 < TypeSize ty + SizeOfPointer < 2 ^ 17.
Proof.
  rewrite int_TypeSize.
  pose proof (TypeSize_bounds ty). pose proof SizeOfPointer_bounds.
  assert (2 ^ 17 = 2 * 2 ^ 16) by (by vm_compute).
  split; [|lia]. apply wrap_small, small_in_int. lia.
Qed.

(** The table after [init], key by key. *)
Lemma HeapOverhead_DocumentMatch :
  HeapOverhead_at "DocumentMatch" = TypeSize TDocumentMatch + SizeOfPointer.
Proof.
  unfold HeapOverhead_at, HeapOverhead, init.
  rewrite !lookup_insert_ne by discriminate. rewrite lookup_insert_eq. simpl.
  apply overhead_with_pointer.
Qed.

Lemma HeapOverhead_Location :
  HeapOverhead_at "Location" = TypeSize TLocation + SizeOfPointer.
Proof.
  unfold HeapOverhead_at, HeapOverhead, init.
  rewrite !lookup_insert_ne by discriminate. rewrite lookup_insert_eq. simpl.
  apply overhead_with_pointer.
Qed.

Lemma HeapOverhead_Document :
  HeapOverhead_at "Document" = TypeSize TDocument + SizeOfPointer.
Proof.
  unfold HeapOverhead_at, HeapOverhead, init.
  rewrite !lookup_insert_ne by discriminate. rewrite lookup_insert_eq. simpl.
  apply overhead_with_pointer.
Qed.

Lemma HeapOverhead_CompositeField :
  HeapOverhead_at "CompositeField" = TypeSize TCompositeField + SizeOfPointer.
Proof.
  unfold HeapOverhead_at, HeapOverhead, init.
  rewrite !lookup_insert_ne by discriminate. rewrite lookup_insert_eq. simpl.
  apply overhead_with_pointer.
Qed.

Lemma HeapOverhead_TermLocationMap :
  HeapOverhead_at "TermLocationMap" = TypeSize TTermLocationMap.
Proof.
  unfold HeapOverhead_at, HeapOverhead, init.
  rewrite !lookup_insert_ne by discriminate. rewrite lookup_insert_eq. simpl.
  apply int_TypeSize.
Qed.

Lemma HeapOverhead_DocumentMatchCollection :
  HeapOverhead_at "DocumentMatchCollection" = TypeSize TDocumentMatchCollection.
Proof.
  unfold HeapOverhead_at, HeapOverhead, init.
  rewrite !lookup_insert_ne by discriminate. rewrite lookup_insert_eq. simpl.
  apply int_TypeSize.
Qed.

(** No entry is ever stored under the key [CompositeFields]. *)
Lemma HeapOverhead_CompositeFields : HeapOverhead_at "CompositeFields" = 0.
Proof.
  unfold HeapOverhead_at, HeapOverhead, init.
  rewrite !lookup_insert_ne by discriminate. by rewrite lookup_empty.
Qed.

End IntFacts.

(** Proves [wrap IntBits a = wrap IntBits b] when [a] and [b] are equal once
    the reductions inside them are dropped. *)
Ltac int_eq :=
  lazymatch goal with
  | |- wrap IntBits ?a = wrap IntBits ?b => change (eqm a b)
  end;
  repeat first [ rewrite wrap_eqm | rewrite iadd_eqm | rewrite imul_eqm
               | rewrite int_eqm ];
  apply eqm_of_eq; try lia.

(** ** Sums over lists and maps *)


Lemma lsum_nonneg {A} (f : A → Z) (l : list A) :
  (∀ x, 0 ≤ f x) → 0 ≤ lsum f l.
Proof.
  intros Hf. unfold lsum. induction l as [|x l IH]; simpl; [done|].
  specialize (Hf x). lia.
Qed.

Lemma msum_empty {A} (f : string → A → Z) : msum f ∅ = 0.
Proof. apply map_fold_empty. Qed.

Lemma msum_insert {A} (f : string → A → Z) (m : gmap string A) k v :
  m !! k = None → msum f (<[k := v]> m) = f k v + msum f m.
Proof.
  intros Hk. unfold msum.
  apply (map_fold_insert_L (λ k v acc, f k v + acc)); [|done].
  intros. lia.
Qed.

Lemma msum_delete {A} (f : string → A → Z) (m : gmap string A) k v :
  m !! k = Some v → msum f m = f k v + msum f (delete k m).
Proof.
  intros Hk. rewrite <-(insert_delete_id m k v Hk) at 1.
  apply msum_insert, lookup_delete_eq.
Qed.


Lemma msum_scale {A} (f : string → A → Z) (c : Z) (m : gmap string A) :
  msum (λ k v, c * f k v) m = c * msum f m.
Proof.
  induction m as [|k v m Hk IH] using map_ind.
  - rewrite !msum_empty. lia.
  - rewrite !msum_insert by done. lia.
Qed.

(** ** Sizes as reduced sums *)

Section SizeFacts.
Context `{Platform} `{Collaborators}.

(** Shows the reduction at the head of the accumulator a loop starts with. *)
Ltac expose_wrap :=
  match goal with
  | |- context [fold_left ?s ?l (iadd ?a ?b)] =>
      change (fold_left s l (iadd a b))
        with (fold_left s l (wrap IntBits (a + b)))
  | |- context [map_fold ?s (iadd ?a ?b) ?m] =>
      change (map_fold s (iadd a b) m)
        with (map_fold s (wrap IntBits (a + b)) m)
  end.

(** A loop that adds [f x] to the accumulator for each [x], in [int]. *)
Lemma fold_left_iadd {A} (step : Z → A → Z) (f : A → Z) (l : list A) (a : Z) :
  (∀ acc x, step (wrap IntBits acc) x = wrap IntBits (acc + f x)) →
  fold_left step l (wrap IntBits a) = wrap IntBits (a + lsum f l).
Proof.
  intros Hstep. revert a. induction l as [|x l IH]; intros a; simpl.
  - by rewrite Z.add_0_r.
  - rewrite Hstep, IH. f_equal. lia.
Qed.

Lemma map_fold_iadd {A} (step : string → A → Z → Z) (f : string → A → Z)
    (m : gmap string A) (a : Z) :
  (∀ k v acc, step k v (wrap IntBits acc) = wrap IntBits (acc + f k v)) →
  map_fold step (wrap IntBits a) m = wrap IntBits (a + msum f m).
Proof.
  intros Hstep. induction m as [|k v m Hk Hfirst IH] using map_first_key_ind.
  - by rewrite map_fold_empty, msum_empty, Z.add_0_r.
  - rewrite map_fold_insert_first_key by done.
    rewrite IH, Hstep, msum_insert by done. f_equal. lia.
Qed.

Lemma Location_SizeInBytes_total (l : Location.t) :
  Location.SizeInBytes l = wrap IntBits (Location_total l).
Proof. unfold Location.SizeInBytes, Location_total, iadd. int_eq. Qed.



Lemma TermLocationMap_SizeInBytes_entry_total k v acc :
  TermLocationMap.SizeInBytes_entry k v (wrap IntBits acc) =
  wrap IntBits (acc + term_total k v).
Proof.
  unfold TermLocationMap.SizeInBytes_entry, term_total.
  expose_wrap. rewrite (fold_left_iadd _ Location_total).
  - int_eq.
  - intros acc' x. rewrite Location_SizeInBytes_total. unfold iadd. int_eq.
Qed.

Lemma HeapOverhead_TermLocationMap_wrap :
  HeapOverhead_at "TermLocationMap" = wrap IntBits (HeapOverhead_at "TermLocationMap").
Proof.
  rewrite HeapOverhead_TermLocationMap. symmetry. apply int_TypeSize.
Qed.

(** The size of a term location map is the reduced sum of its overhead and
    of what its terms add. *)
Lemma TermLocationMap_SizeInBytes_total (t : TermLocationMap.t)
    (τ : gmap positive (gmap string (list Location.t))) :
  TermLocationMap.SizeInBytes t τ =
  wrap IntBits (HeapOverhead_at "TermLocationMap" +
                match t with
                | Some a => msum term_total (TermLocationMap.entries τ a)
                | None => 0
                end).
Proof.
  unfold TermLocationMap.SizeInBytes. destruct t as [a|].
  - rewrite HeapOverhead_TermLocationMap_wrap at 1.
    apply map_fold_iadd. apply TermLocationMap_SizeInBytes_entry_total.
  - rewrite Z.add_0_r. apply HeapOverhead_TermLocationMap_wrap.
Qed.

Lemma iadd_unfold a b : iadd a b = wrap IntBits (a + b).
Proof. reflexivity. Qed.

Lemma strings_stage (l : list string) (a : Z) :
  fold_left DocumentMatch.SizeInBytes_string l (wrap IntBits a) =
  wrap IntBits (a + lsum string_total l).
Proof.
  apply fold_left_iadd. intros acc x.
  unfold DocumentMatch.SizeInBytes_string, string_total.
  rewrite iadd_unfold. int_eq.
Qed.

Lemma locations_stage τ (m : gmap string TermLocationMap.t) (a : Z) :
  map_fold (DocumentMatch.SizeInBytes_location τ) (wrap IntBits a) m =
  wrap IntBits (a + msum (location_total τ) m).
Proof.
  apply map_fold_iadd. intros k v acc.
  unfold DocumentMatch.SizeInBytes_location, location_total.
  rewrite iadd_unfold. int_eq.
Qed.

Lemma fragments_stage (m : gmap string (list string)) (a : Z) :
  map_fold DocumentMatch.SizeInBytes_fragment (wrap IntBits a) m =
  wrap IntBits (a + msum fragment_total m).
Proof.
  apply map_fold_iadd. intros k v acc.
  unfold DocumentMatch.SizeInBytes_fragment, fragment_total.
  rewrite iadd_unfold, strings_stage. int_eq.
Qed.

Lemma fields_stage (m : gmap string interface) (a : Z) :
  map_fold DocumentMatch.SizeInBytes_field (wrap IntBits a) m =
  wrap IntBits (a + msum field_total m).
Proof.
  apply map_fold_iadd. intros k v acc.
  unfold DocumentMatch.SizeInBytes_field, field_total.
  rewrite iadd_unfold. int_eq.
Qed.

(** What the code adds for an attached document: nothing of it comes from
    the composite fields. *)
Lemma SizeInBytes_document_total (doc : document.Document Field CompositeField) :
  DocumentMatch.SizeInBytes_document doc = wrap IntBits (Document_total (Some doc)).
Proof.
  unfold DocumentMatch.SizeInBytes_document, Document_total.
  rewrite HeapOverhead_CompositeFields, iadd_unfold. int_eq.
Qed.

(** The size of a match is the reduced sum of its parts. *)
Lemma DocumentMatch_SizeInBytes_total (d : DocumentMatch.t)
    (τ : gmap positive (gmap string (list Location.t))) :
  DocumentMatch.SizeInBytes d τ = wrap IntBits (DocumentMatch_total d τ).
Proof.
  unfold DocumentMatch.SizeInBytes, DocumentMatch_total. cbv zeta.
  rewrite (iadd_unfold (iadd _ _) (Z.of_nat _)).
  assert (Hexpl : ∀ a, match DocumentMatch.Expl d with
                       | Some expl => iadd (wrap IntBits a) (Explanation_SizeInBytes expl)
                       | None => wrap IntBits a
                       end = wrap IntBits (a + Expl_total (DocumentMatch.Expl d))).
  { intros a. destruct (DocumentMatch.Expl d); simpl.
    - rewrite iadd_unfold. int_eq.
    - by rewrite Z.add_0_r. }
  rewrite Hexpl, locations_stage, fragments_stage, strings_stage, fields_stage.
  destruct (DocumentMatch.Document d) as [doc|].
  - rewrite SizeInBytes_document_total, iadd_unfold. int_eq.
  - unfold Document_total. int_eq.
Qed.

End SizeFacts.

(** ** Sizes of collections *)

Module CollectionSizeFacts.
Section CollectionSizeFacts.
Context `{Platform} `{Collaborators}.
Import DocumentMatchCollection.

Lemma lsum_non_nil (τ : gmap positive (gmap string (list Location.t)))
    (c : list (option DocumentMatch.t)) :
  lsum (λ entry, match entry with
                 | Some d => DocumentMatch.SizeInBytes d τ
                 | None => 0
                 end) c =
  lsum (λ d, DocumentMatch.SizeInBytes d τ) (non_nil c).
Proof.
  unfold non_nil, lsum. induction c as [|[d|] c IH]; simpl; [done| |done].
  by rewrite IH.
Qed.

Lemma non_nil_app (c1 c2 : list (option DocumentMatch.t)) :
  non_nil (c1 ++ c2) = non_nil c1 ++ non_nil c2.
Proof. unfold non_nil. apply omap_app. Qed.

Lemma non_nil_Some (l : list DocumentMatch.t) : non_nil (Some <$> l) = l.
Proof.
  unfold non_nil. induction l as [|d l IH]; [done|].
  cbn [fmap list_fmap omap list_omap id]. f_equal. exact IH.
Qed.

Lemma SizeInBytes_total (c : list (option DocumentMatch.t))
    (τ : gmap positive (gmap string (list Location.t))) :
  SizeInBytes c τ =
  wrap IntBits (HeapOverhead_at "DocumentMatchCollection" +
                lsum (λ d, DocumentMatch.SizeInBytes d τ) (non_nil c)).
Proof.
  unfold SizeInBytes. cbv zeta.
  rewrite <-lsum_non_nil.
  assert (Hwrap : HeapOverhead_at "DocumentMatchCollection" =
                  wrap IntBits (HeapOverhead_at "DocumentMatchCollection")).
  { rewrite HeapOverhead_DocumentMatchCollection. symmetry. apply int_TypeSize. }
  rewrite Hwrap at 1. apply fold_left_iadd.
  intros acc [d|]; simpl.
  - rewrite iadd_unfold. int_eq.
  - by rewrite Z.add_0_r.
Qed.

(** C10: the size of a collection is defined whatever entries are nil. It
    is the overhead of the collection plus the sizes of the entries that are
    not nil, in [int] arithmetic; a nil entry changes nothing, so a
    collection of nil entries only has the size of the overhead; and the sum
    is exact when it is in the range of [int]. *)
Theorem SizeInBytes_skips_nil (c : list (option DocumentMatch.t))
    (τ : gmap positive (gmap string (list Location.t))) :
  SizeInBytes c τ =
    wrap IntBits (HeapOverhead_at "DocumentMatchCollection" +
                  lsum (λ d, DocumentMatch.SizeInBytes d τ) (non_nil c)) ∧
  (in_int IntBits (HeapOverhead_at "DocumentMatchCollection" +
                   lsum (λ d, DocumentMatch.SizeInBytes d τ) (non_nil c)) →
   SizeInBytes c τ =
     HeapOverhead_at "DocumentMatchCollection" +
     lsum (λ d, DocumentMatch.SizeInBytes d τ) (non_nil c)) ∧
  SizeInBytes c τ = SizeInBytes (Some <$> non_nil c) τ ∧
  (∀ c1 c2, c = c1 ++ None :: c2 → SizeInBytes c τ = SizeInBytes (c1 ++ c2) τ) ∧
  (non_nil c = [] → SizeInBytes c τ = HeapOverhead_at "DocumentMatchCollection").
Proof.
  split; [apply SizeInBytes_total|]. split; [|split; [|split]].
  - intros Hrange. rewrite SizeInBytes_total. by apply wrap_small.
  - by rewrite !SizeInBytes_total, non_nil_Some.
  - intros c1 c2 ->. by rewrite !SizeInBytes_total, !non_nil_app.
  - intros Hnil. rewrite SizeInBytes_total, Hnil. simpl. rewrite Z.add_0_r.
    rewrite HeapOverhead_DocumentMatchCollection. apply int_TypeSize.
Qed.

End CollectionSizeFacts.
End CollectionSizeFacts.

(** ** Growth of sizes under [AddLocation] *)

Module AddLocationFacts.
Section AddLocationFacts.
Context `{Platform} `{Collaborators}.
Import TermLocationMap.











End AddLocationFacts.
End AddLocationFacts.

(** ** The composite fields of an attached document *)

Module CompositeFieldFacts.

(** For every match, the size the code computes has no part for the
    composite fields of the attached document, while the documented size has
    one positive overhead for each of them. *)
Lemma SizeInBytes_without_composite_fields `{Platform} `{Collaborators}
    (d : DocumentMatch.t) (τ : gmap positive (gmap string (list Location.t))) :
  DocumentMatch.SizeInBytes d τ = wrap IntBits (DocumentMatch_total d τ) ∧
  DocumentMatch_total_documented d τ =
    DocumentMatch_total d τ +
    match DocumentMatch.Document d with
    | Some doc => len (document.CompositeFields doc) *
                  (TypeSize TCompositeField + SizeOfPointer)
    | None => 0
    end ∧
  0 < TypeSize TCompositeField + SizeOfPointer.
Proof.
  split; [apply DocumentMatch_SizeInBytes_total|]. split.
  - unfold DocumentMatch_total_documented. by rewrite HeapOverhead_CompositeField.
  - pose proof (TypeSize_bounds TCompositeField). pose proof SizeOfPointer_bounds. lia.
Qed.

(** C2 at a match with an attached document that has one composite field,
    on linux/amd64: [init] stores 72 under the key [CompositeField], the
    code reads the key [CompositeFields], which holds nothing, and the size
    comes out as 219 where the documented sum is 291. *)
Theorem SizeInBytes_composite_field_not_counted :
  let doc := document.mk (Field := @Field plain_collaborators)
               (CompositeField := @CompositeField plain_collaborators)
               "doc" [] [tt] in
  let d := DocumentMatch.mk (H0 := plain_collaborators)
             "" "" Slice.nil (S754_zero false) None None None Slice.nil None
             (Some doc) 0 in
  HeapOverhead (H := amd64) !! "CompositeField" = Some 72 ∧
  HeapOverhead (H := amd64) !! "CompositeFields" = None ∧
  DocumentMatch.SizeInBytes (H := amd64) d ∅ = 219 ∧
  DocumentMatch_total_documented (H := amd64) d ∅ = 291.
Proof. vm_compute. repeat split; reflexivity. Qed.

End CompositeFieldFacts.

(** ** Concrete runs *)

Module Runs.



(** [Reset] of a match whose identifier buffer has length 2 and capacity 4
    and whose sort buffer has length 1 and capacity 3. *)
Lemma Reset_spec_witness :
  let d := DocumentMatch.mk (H0 := plain_collaborators)
             "idx" "doc-1"
             (Slice.mk [Byte.x00; Byte.x01; Byte.x02; Byte.x03] 2)
             (S754_finite false 4503599627370496 (-52)) None
             (Some {["body" := Some 1%positive]}) None
             (Slice.mk ["a"; "b"; "c"] 1)
             (Some {["title" := IString "x"]}) None 7 in
  let σ : gmap positive DocumentMatch.t := {[1%positive := d]} in
  ∃ d', DocumentMatch.Reset 1%positive σ = Some (1%positive, <[1%positive := d']> σ) ∧
        DocumentMatch.Index d' = "" ∧ DocumentMatch.ID d' = "" ∧
        DocumentMatch.Score d' = S754_zero false ∧
        DocumentMatch.Expl d' = None ∧ DocumentMatch.Locations d' = None ∧
        DocumentMatch.Fragments d' = None ∧
        DocumentMatch.Fields d' = None ∧ DocumentMatch.Document d' = None ∧
        DocumentMatch.HitNumber d' = 0 ∧
        Slice.len (DocumentMatch.IndexInternalID d') = 0%nat ∧
        Slice.array (DocumentMatch.IndexInternalID d') =
          [Byte.x00; Byte.x01; Byte.x02; Byte.x03] ∧
        Slice.cap (DocumentMatch.IndexInternalID d') = 4%nat ∧
        Slice.len (DocumentMatch.Sort d') = 0%nat ∧
        Slice.array (DocumentMatch.Sort d') = ["a"; "b"; "c"] ∧
        Slice.cap (DocumentMatch.Sort d') = 3%nat.
Proof.
  intros d σ. apply (DocumentMatchFacts.Reset_spec σ 1%positive d).
  vm_compute. reflexivity.
Defined.



(** The sizes of the last run, computed: the map goes from 109 to 226 and
    the match from 278 to 395. *)
Example AddLocation_run :
  let location := Location.mk 2 6 11 [0; 1] in
  let d := DocumentMatch.mk (H0 := plain_collaborators)
             "" "doc-1" Slice.nil (S754_zero false) None
             (Some {["body" := Some 1%positive]}) None Slice.nil None None 0 in
  let τ : gmap positive (gmap string (list Location.t)) :=
    {[1%positive := {["quick" := [Location.mk 1 0 5 []]]}]} in
  let sizes τ := (TermLocationMap.SizeInBytes (H := amd64) (Some 1%positive) τ,
                  DocumentMatch.SizeInBytes (H := amd64) d τ) in
  sizes τ = (109, 278) ∧
  sizes <$> TermLocationMap.AddLocation (Some 1%positive) "brown" location τ
    = Some (226, 395).
Proof. vm_compute. split; reflexivity. Qed.

End Runs.

(** ** The memory tracker: allocation and runs of calls *)

Module MemTrackerRuns.
Import MemTracker.

(** X1: [NewMemTracker] returns a pointer that no live tracker has; the new
    tracker starts at 0, the live trackers keep their usage, and the trackers
    of the store are the old ones and the new one. *)
Theorem NewMemTracker_no_alias (σ : gmap positive t) :
  σ !! (NewMemTracker σ).1 = None ∧
  Usage (NewMemTracker σ).1 (NewMemTracker σ).2 = Some 0 ∧
  (∀ m u, Usage m σ = Some u →
          m ≠ (NewMemTracker σ).1 ∧ Usage m (NewMemTracker σ).2 = Some u) ∧
  dom (NewMemTracker σ).2 = {[(NewMemTracker σ).1]} ∪ dom σ ∧
  (NewMemTracker (NewMemTracker σ).2).1 ≠ (NewMemTracker σ).1.
Proof.
  pose proof (MemTrackerFacts.NewMemTracker_fresh σ) as Hfresh.
  split; [done|]. split; [apply MemTrackerFacts.NewMemTracker_usage|].
  split; [|split].
  - intros m u Hu. split; [|by apply MemTrackerFacts.NewMemTracker_other].
    intros ->. unfold Usage in Hu. by rewrite Hfresh in Hu.
  - unfold NewMemTracker; simpl. apply dom_insert_L.
  - intros Heq.
    pose proof (MemTrackerFacts.NewMemTracker_fresh (NewMemTracker σ).2) as Hf2.
    rewrite Heq in Hf2. unfold NewMemTracker in Hf2 at 2; simpl in Hf2.
    unfold NewMemTracker in Hf2; simpl in Hf2. by rewrite lookup_insert_eq in Hf2.
Qed.

Lemma Add_dom (σ σ' : gmap positive t) m n :
  Add m n σ = Some σ' → dom σ' = dom σ.
Proof.
  unfold Add. destruct (σ !! m) as [r|] eqn:Hm; [|done]. intros [= <-].
  rewrite dom_insert_L. apply elem_of_dom_2 in Hm.
  apply subseteq_union_1_L. by apply singleton_subseteq_l.
Qed.

Lemma Add_None (σ : gmap positive t) m n : Add m n σ = None ↔ σ !! m = None.
Proof. unfold Add. by destruct (σ !! m). Qed.

Lemma Add_lookup_live (σ σ' : gmap positive t) m n m' :
  Add m n σ = Some σ' → σ' !! m' = None ↔ σ !! m' = None.
Proof.
  intros Hadd. rewrite <-!not_elem_of_dom. by rewrite (Add_dom _ _ _ _ Hadd).
Qed.

(** Two calls commute, whatever their receivers. *)
Lemma Add_commute (σ : gmap positive t) m1 n1 m2 n2 :
  Add m1 n1 σ ≫= Add m2 n2 = Add m2 n2 σ ≫= Add m1 n1.
Proof.
  destruct (Add m1 n1 σ) as [σ1|] eqn:H1; destruct (Add m2 n2 σ) as [σ2|] eqn:H2;
    simpl.
  - unfold Add in *.
    destruct (σ !! m1) as [r1|] eqn:Hm1; [|done].
    destruct (σ !! m2) as [r2|] eqn:Hm2; [|done].
    injection H1 as <-. injection H2 as <-.
    destruct (decide (m1 = m2)) as [->|Hne].
    + rewrite !lookup_insert_eq, !insert_insert_eq. simpl.
      assert (r1 = r2) as -> by congruence.
      do 3 f_equal. unfold uint64_add, uint64.
      rewrite !Zplus_mod_idemp_l. f_equal. lia.
    + rewrite !lookup_insert_ne by done. rewrite Hm1, Hm2.
      f_equal. by apply insert_insert_ne.
  - apply Add_None in H2. apply Add_None. by apply (Add_lookup_live _ _ _ _ _ H1).
  - apply Add_None in H1. symmetry. apply Add_None.
    by apply (Add_lookup_live _ _ _ _ _ H2).
  - done.
Qed.

Lemma AddAll_cons (σ : gmap positive t) m n calls :
  AddAll ((m, n) :: calls) σ = Add m n σ ≫= AddAll calls.
Proof. simpl. by destruct (Add m n σ). Qed.

Lemma AddAll_cons2 (σ : gmap positive t) m1 n1 m2 n2 calls :
  AddAll ((m1, n1) :: (m2, n2) :: calls) σ =
  (Add m1 n1 σ ≫= Add m2 n2) ≫= AddAll calls.
Proof.
  simpl. destruct (Add m1 n1 σ) as [σ1|]; simpl; [|done].
  by destruct (Add m2 n2 σ1).
Qed.

(** X2: the order of a run of [Add] calls does not matter: a run and any
    rearrangement of it leave the same store, or both panic. *)
Theorem AddAll_any_order (calls calls' : list (ptr * Z)) (σ : gmap positive t) :
  calls ≡ₚ calls' → AddAll calls σ = AddAll calls' σ.
Proof.
  intros Hperm. revert σ.
  induction Hperm as [|[m n] l l' _ IH|[m1 n1] [m2 n2] l|l1 l2 l3 _ IH1 _ IH2];
    intros σ.
  - done.
  - rewrite !AddAll_cons. destruct (Add m n σ); simpl; [apply IH|done].
  - by rewrite !AddAll_cons2, Add_commute.
  - by rewrite IH1, IH2.
Qed.

Lemma AddAll_any_order_witness :
  let m1 := (NewMemTracker ∅).1 in
  let σ1 := (NewMemTracker ∅).2 in
  let m2 := (NewMemTracker σ1).1 in
  let σ2 := (NewMemTracker σ1).2 in
  AddAll [(m1, 3); (m2, 4); (m1, 5)] σ2 = AddAll [(m1, 5); (m1, 3); (m2, 4)] σ2.
Proof.
  intros m1 σ1 m2 σ2.
  apply (AddAll_any_order [(m1, 3); (m2, 4); (m1, 5)] [(m1, 5); (m1, 3); (m2, 4)] σ2).
  apply (bool_decide_unpack _). vm_compute. exact I.
Defined.

(** X3: a run of [Add] calls goes through exactly when every receiver is a
    live tracker, and then the store holds the same trackers as before: no
    call creates or removes one. *)
Theorem AddAll_live (calls : list (ptr * Z)) (σ : gmap positive t) :
  (is_Some (AddAll calls σ) ↔ ∀ call, call ∈ calls → is_Some (σ !! call.1)) ∧
  (∀ σ', AddAll calls σ = Some σ' → dom σ' = dom σ).
Proof.
  revert σ. induction calls as [|[m n] calls IH]; intros σ.
  - split; [|by intros σ' [= <-]]. split; [|by eauto].
    intros _ call Hin. by apply elem_of_nil in Hin.
  - rewrite AddAll_cons. destruct (Add m n σ) as [σ1|] eqn:Hadd; simpl.
    + destruct (IH σ1) as [Hiff Hdom].
      assert (Hlive : ∀ m', is_Some (σ1 !! m') ↔ is_Some (σ !! m')).
      { intros m'. rewrite <-!elem_of_dom. by rewrite (Add_dom _ _ _ _ Hadd). }
      split.
      * rewrite Hiff. split.
        -- intros Hall call [->|Hin]%elem_of_cons.
           ++ simpl. unfold Add in Hadd. by destruct (σ !! m).
           ++ apply Hlive. by apply Hall.
        -- intros Hall call Hin. apply Hlive. apply Hall. by right.
      * intros σ' Hrun. rewrite (Hdom σ' Hrun). by apply (Add_dom _ _ _ _ Hadd).
    + split; [|done]. split; [by intros [? ?]|].
      intros Hall. apply Add_None in Hadd.
      destruct (Hall (m, n)) as [r Hr]; [by left|]. simpl in Hr. congruence.
Qed.

(** X4: two calls on a tracker amount to one call with the sum of the two
    amounts, reduced to [uint64]; and [Add(0)] leaves every store a program
    can build as it is. *)
Theorem Add_Add (σ : gmap positive t) (m : ptr) (a b : Z) :
  Add m a σ ≫= Add m b = Add m (uint64 (a + b)) σ ∧
  (reachable σ → is_Some (σ !! m) → Add m 0 σ = Some σ).
Proof.
  split.
  - unfold Add. destruct (σ !! m) as [r|] eqn:Hm; simpl; [|done].
    rewrite lookup_insert_eq, insert_insert_eq. simpl. do 3 f_equal.
    unfold uint64_add, uint64. rewrite Zplus_mod_idemp_l, Zplus_mod_idemp_r.
    f_equal. lia.
  - intros Hr [r Hm]. unfold Add. rewrite Hm. f_equal.
    assert (Hu : Usage m σ = Some (bytes r)) by (unfold Usage; by rewrite Hm).
    pose proof (MemTrackerFacts.reachable_uint64 _ _ _ Hr Hu) as Hrange.
    unfold uint64_add. rewrite Z.add_0_r, uint64_small by done.
    apply insert_id. rewrite Hm. by destruct r.
Qed.

End MemTrackerRuns.

(** ** Scores: the order is strict and transitive *)

Lemma pos_compare_cont_Eq (p q : positive) :
  Pos.compare_cont Eq p q = Pos.compare p q.
Proof. reflexivity. Qed.

Lemma SFltb_trans (a b c : spec_float) :
  SFltb a b = true → SFltb b c = true → SFltb a c = true.
Proof.
  unfold SFltb.
  destruct a as [sa|sa| |sa ma ea], b as [sb|sb| |sb mb eb],
    c as [sc|sc| |sc mc ec]; simpl; try discriminate; try reflexivity;
    try (destruct sa; simpl; try discriminate; try reflexivity);
    try (destruct sb; simpl; try discriminate; try reflexivity);
    try (destruct sc; simpl; try discriminate; try reflexivity).
  all: change (PosDef.Pos.compare_cont Eq) with Pos.compare.
  all: destruct (Z.compare_spec ea eb); try discriminate;
       destruct (Z.compare_spec eb ec); try discriminate;
       destruct (Z.compare_spec ea ec); try lia; try reflexivity; subst;
       try (destruct (Pos.compare_spec ma mb); simpl; try discriminate);
       try (destruct (Pos.compare_spec mb mc); simpl; try discriminate);
       try (destruct (Pos.compare_spec ma mc); simpl; try lia; try reflexivity);
       try lia.
Qed.

Lemma SFltb_irrefl (a : spec_float) : SFltb a a = false.
Proof.
  unfold SFltb.
  destruct a as [s|s| |s m e]; simpl; try reflexivity; destruct s; try reflexivity;
    rewrite Z.compare_refl; change (PosDef.Pos.compare_cont Eq) with Pos.compare;
    by rewrite Pos.compare_refl.
Qed.

Lemma SFltb_nan (a : spec_float) :
  SFltb a S754_nan = false ∧ SFltb S754_nan a = false.
Proof. unfold SFltb. by destruct a. Qed.

(** ** Collections: exchange of entries and the order *)

Lemma insert_head_Permutation {A} (l : list A) (j : nat) (x y : A) :
  l !! j = Some y → x :: l ≡ₚ y :: <[j := x]> l.
Proof.
  revert j. induction l as [|z l IH]; intros [|j] Hj; simplify_eq/=.
  - apply perm_swap.
  - rewrite (perm_swap z x l), (IH j Hj). apply perm_swap.
Qed.

Lemma swap_Permutation {A} (l : list A) (i j : nat) (x y : A) :
  l !! i = Some x → l !! j = Some y → <[j := x]> (<[i := y]> l) ≡ₚ l.
Proof.
  revert i j. induction l as [|z l IH]; intros [|i] [|j] Hi Hj; simplify_eq/=.
  - done.
  - symmetry. by apply insert_head_Permutation.
  - symmetry. by apply insert_head_Permutation.
  - f_equiv. by apply IH.
Qed.

Module CollectionOrder.
Section CollectionOrder.
Context `{Collaborators}.
Import DocumentMatchCollection.

Lemma index_Some (c : list (option DocumentMatch.t)) (i : Z) entry :
  index c i = Some entry ↔ 0 ≤ i ∧ c !! Z.to_nat i = Some entry.
Proof.
  unfold index. case_decide.
  - split; [done|]. by intros [_ ?].
  - split; [done|]. intros [? _]. lia.
Qed.

Lemma index_is_Some (c : list (option DocumentMatch.t)) (i : Z) :
  is_Some (index c i) ↔ 0 ≤ i < Len c.
Proof.
  unfold index, Len, len. case_decide.
  - rewrite lookup_lt_is_Some. lia.
  - split; [by intros [? ?]|lia].
Qed.

(** X5: on the entries of a collection that hold a match, [Less] is a strict
    order: no entry is less than itself, and if [i] is less than [j] and [j]
    less than [k] then [i] is less than [k]. *)
Theorem Less_strict_order (c : list (option DocumentMatch.t)) (i j k : Z)
    (ci cj ck : DocumentMatch.t) :
  index c i = Some (Some ci) → index c j = Some (Some cj) →
  index c k = Some (Some ck) →
  Less c i i = Some false ∧
  (Less c i j = Some true → Less c j k = Some true → Less c i k = Some true).
Proof.
  intros Hi Hj Hk. unfold Less. rewrite Hi, Hj, Hk. split.
  - f_equal. apply SFltb_irrefl.
  - intros [= Hij] [= Hjk]. f_equal. unfold float64_gt in *.
    by apply (SFltb_trans _ (DocumentMatch.Score cj)).
Qed.

(** X6: a match whose score is NaN is neither less nor greater than any
    match of the collection, itself included. *)
Theorem Less_NaN (c : list (option DocumentMatch.t)) (i j : Z)
    (ci cj : DocumentMatch.t) :
  index c i = Some (Some ci) → index c j = Some (Some cj) →
  DocumentMatch.Score ci = S754_nan →
  Less c i j = Some false ∧ Less c j i = Some false.
Proof.
  intros Hi Hj Hnan. unfold Less. rewrite Hi, Hj, Hnan. unfold float64_gt.
  destruct (SFltb_nan (DocumentMatch.Score cj)) as [-> ->]. done.
Qed.

(** X7: [Swap(i, j)] at two indices of the collection exchanges the two
    entries and leaves every other entry where it is; the collection keeps
    its length and its entries, and a second [Swap(i, j)] restores it. *)
Theorem Swap_exchanges (c : list (option DocumentMatch.t)) (i j : Z) :
  0 ≤ i < Len c → 0 ≤ j < Len c →
  ∃ c', Swap c i j = Some c' ∧
        index c' i = index c j ∧ index c' j = index c i ∧
        (∀ k, k ≠ i → k ≠ j → index c' k = index c k) ∧
        Len c' = Len c ∧ c' ≡ₚ c ∧
        Swap c' i j = Some c.
Proof.
  intros Hi Hj.
  destruct (proj2 (index_is_Some c i) Hi) as [ci Hci].
  destruct (proj2 (index_is_Some c j) Hj) as [cj Hcj].
  unfold Swap at 1. rewrite Hci, Hcj. eexists. split; [reflexivity|].
  apply index_Some in Hci as [_ Hci]. apply index_Some in Hcj as [_ Hcj].
  assert (Hli : (Z.to_nat i < length c)%nat) by (by eapply lookup_lt_Some).
  assert (Hlj : (Z.to_nat j < length c)%nat) by (by eapply lookup_lt_Some).
  set (c' := <[Z.to_nat j := ci]> (<[Z.to_nat i := cj]> c)).
  assert (Hi' : c' !! Z.to_nat i = Some cj).
  { unfold c'. destruct (decide (Z.to_nat j = Z.to_nat i)) as [Heq|Hne].
    - rewrite Heq, list_lookup_insert_eq by (by rewrite length_insert).
      rewrite Heq in Hcj. congruence.
    - rewrite list_lookup_insert_ne by done. by apply list_lookup_insert_eq. }
  assert (Hj' : c' !! Z.to_nat j = Some ci).
  { unfold c'. apply list_lookup_insert_eq. by rewrite length_insert. }
  split; [|split; [|split; [|split; [|split]]]].
  - unfold index. by rewrite decide_True by lia.
  - unfold index. by rewrite decide_True by lia.
  - intros k Hki Hkj. unfold index. case_decide; [|done].
    unfold c'. rewrite !list_lookup_insert_ne by lia. done.
  - unfold Len, len, c'. by rewrite !length_insert.
  - by apply swap_Permutation.
  - unfold Swap, index. rewrite !decide_True by lia. rewrite Hi', Hj'. f_equal.
    unfold c'. destruct (decide (Z.to_nat j = Z.to_nat i)) as [Heq|Hne].
    + rewrite Heq in *. rewrite !list_insert_insert_eq.
      assert (ci = cj) as -> by congruence.
      by rewrite list_insert_id.
    + rewrite (list_insert_insert_ne _ (Z.to_nat i) (Z.to_nat j)) by done.
      rewrite !list_insert_insert_eq.
      by rewrite (list_insert_id _ _ _ Hci), (list_insert_id _ _ _ Hcj).
Qed.

(** X8: [Swap] panics exactly when one of its indices is outside the
    collection, and [Less] exactly when one is outside or names a nil
    entry. *)
Theorem Swap_Less_panic (c : list (option DocumentMatch.t)) (i j : Z) :
  (Swap c i j = None ↔ ¬ (0 ≤ i < Len c ∧ 0 ≤ j < Len c)) ∧
  (Less c i j = None ↔
     ¬ (0 ≤ i < Len c ∧ 0 ≤ j < Len c) ∨
     index c i = Some None ∨ index c j = Some None).
Proof.
  pose proof (index_is_Some c i) as Hi. pose proof (index_is_Some c j) as Hj.
  unfold Swap, Less.
  destruct (index c i) as [[ci|]|], (index c j) as [[cj|]|]; split; split;
    try done; try (intros _; intros [? ?]);
    try (intros Hn; exfalso; apply Hn; split; [apply Hi|apply Hj]; eauto);
    try (intros [Hn|[?|?]]; [exfalso; apply Hn; split; [apply Hi|apply Hj]; eauto|done..]);
    try (intros _; eauto; left; intros [? ?]);
    try (by (destruct Hi as [_ Hi]; destruct Hi; auto));
    try (by (destruct Hj as [_ Hj]; destruct Hj; auto)).
Qed.

End CollectionOrder.
End CollectionOrder.

(** ** Further facts on sums *)

Lemma lsum_Permutation {A} (f : A → Z) (l l' : list A) :
  l ≡ₚ l' → lsum f l = lsum f l'.
Proof.
  unfold lsum. induction 1 as [|x l l' _ IH|x y l|l1 l2 l3 _ IH1 _ IH2]; simpl;
    [done|by rewrite IH|lia|by rewrite IH1].
Qed.

Lemma msum_map_to_list {A} (f : string → A → Z) (m : gmap string A) :
  msum f m = lsum (λ kv, f kv.1 kv.2) (map_to_list m).
Proof.
  unfold msum, lsum. rewrite map_fold_foldr.
  induction (map_to_list m) as [|[k v] l IH]; simpl; [done|]. by rewrite IH.
Qed.

Lemma msum_keys_only {A B} (g : string → Z) (m : gmap string A) :
  ∀ m' : gmap string B, dom m = dom m' →
  msum (λ k _, g k) m = msum (λ k _, g k) m'.
Proof.
  induction m as [|k v m Hk IH] using map_ind; intros m' Hdom.
  - rewrite dom_empty_L in Hdom. symmetry in Hdom. apply dom_empty_inv_L in Hdom.
    subst. by rewrite !msum_empty.
  - assert (is_Some (m' !! k)) as [v' Hv'].
    { apply elem_of_dom. rewrite <-Hdom, dom_insert_L.
      apply elem_of_union_l. by apply elem_of_singleton. }
    rewrite msum_insert by done. rewrite (msum_delete _ m' k v' Hv').
    f_equal. apply IH. rewrite dom_delete_L, <-Hdom, dom_insert_L.
    apply not_elem_of_dom in Hk.
    apply set_eq. intros x.
    rewrite elem_of_difference, elem_of_union, !elem_of_singleton.
    split; [intros Hx; split; [by right|by intros ->]|by intros [[?|?] ?]].
Qed.

(** ** Sizes: what they depend on *)

Module SizeShape.
Section SizeShape.
Context `{Platform} `{Collaborators}.

Lemma fold_left_visit (visit : list (string * list Location.t)) (a : Z) :
  fold_left
    (λ sizeInBytes kv, TermLocationMap.SizeInBytes_entry kv.1 kv.2 sizeInBytes)
    visit (wrap IntBits a) =
  wrap IntBits (a + lsum (λ kv, term_total kv.1 kv.2) visit).
Proof.
  apply (fold_left_iadd _ (λ kv, term_total kv.1 kv.2)).
  intros acc [k v]. apply TermLocationMap_SizeInBytes_entry_total.
Qed.

(** X9: the size of a term location map does not depend on the order in
    which the loop visits its entries: run over any arrangement of the
    entries, the loop ends with the value of [SizeInBytes]. *)
Theorem TermLocationMap_SizeInBytes_any_order
    (τ : gmap positive (gmap string (list Location.t))) (a : positive)
    (visit : list (string * list Location.t)) :
  visit ≡ₚ map_to_list (TermLocationMap.entries τ a) →
  SizeInBytes_visiting visit = TermLocationMap.SizeInBytes (Some a) τ.
Proof.
  intros Hperm. unfold SizeInBytes_visiting.
  rewrite HeapOverhead_TermLocationMap_wrap at 1.
  rewrite fold_left_visit, TermLocationMap_SizeInBytes_total.
  by rewrite msum_map_to_list, (lsum_Permutation _ _ _ Hperm).
Qed.

(** X10: the nil map, and a map with no entry, have the size of the
    overhead of a [TermLocationMap] and nothing more. *)
Theorem TermLocationMap_SizeInBytes_empty
    (τ : gmap positive (gmap string (list Location.t))) :
  TermLocationMap.SizeInBytes None τ = TypeSize TTermLocationMap ∧
  (∀ a, TermLocationMap.entries τ a = ∅ →
        TermLocationMap.SizeInBytes (Some a) τ = TypeSize TTermLocationMap).
Proof.
  split.
  - unfold TermLocationMap.SizeInBytes. apply HeapOverhead_TermLocationMap.
  - intros a Hempty. unfold TermLocationMap.SizeInBytes.
    rewrite Hempty, map_fold_empty. apply HeapOverhead_TermLocationMap.
Qed.

(** X11: the size of a match counts the names of its fields, not their
    values, and it reads neither the score, nor the hit number, nor the bytes
    or the spare capacity of the buffers: two matches that agree on the rest
    have the same size. *)
Theorem DocumentMatch_SizeInBytes_reads (d d' : DocumentMatch.t)
    (τ : gmap positive (gmap string (list Location.t))) :
  DocumentMatch.Index d' = DocumentMatch.Index d →
  DocumentMatch.ID d' = DocumentMatch.ID d →
  Slice.len (DocumentMatch.IndexInternalID d') =
    Slice.len (DocumentMatch.IndexInternalID d) →
  DocumentMatch.Expl d' = DocumentMatch.Expl d →
  DocumentMatch.Locations d' = DocumentMatch.Locations d →
  DocumentMatch.Fragments d' = DocumentMatch.Fragments d →
  Slice.elems (DocumentMatch.Sort d') = Slice.elems (DocumentMatch.Sort d) →
  dom (range (DocumentMatch.Fields d')) = dom (range (DocumentMatch.Fields d)) →
  DocumentMatch.Document d' = DocumentMatch.Document d →
  DocumentMatch.SizeInBytes d' τ = DocumentMatch.SizeInBytes d τ.
Proof.
  intros HI HD HL HE HLo HF HS HFi HDo.
  rewrite !DocumentMatch_SizeInBytes_total. unfold DocumentMatch_total.
  rewrite HI, HD, HL, HE, HLo, HF, HS, HDo.
  unfold field_total.
  by rewrite (msum_keys_only (λ k, len_string k + SizeOfString + SizeOfInterface)
                _ _ HFi).
Qed.

Lemma fold_left_pairs {A} (step : string → A → Z → Z) (f : string → A → Z)
    (l : list (string * A)) (a : Z) :
  (∀ k v acc, step k v (wrap IntBits acc) = wrap IntBits (acc + f k v)) →
  fold_left (λ acc kv, step kv.1 kv.2 acc) l (wrap IntBits a) =
  wrap IntBits (a + lsum (λ kv, f kv.1 kv.2) l).
Proof.
  intros Hstep. apply (fold_left_iadd _ (λ kv, f kv.1 kv.2)).
  intros acc [k v]. apply Hstep.
Qed.

(** X19: the size of a match does not depend on the order in which the
    three loops over its maps visit their entries: with the names of
    [Locations], of [Fragments] and of [Fields] taken in any order, the body
    of [SizeInBytes] ends with the same value. *)
Theorem DocumentMatch_SizeInBytes_any_order (d : DocumentMatch.t)
    (τ : gmap positive (gmap string (list Location.t)))
    (locations : list (string * TermLocationMap.t))
    (fragments : list (string * list string))
    (fields : list (string * interface)) :
  locations ≡ₚ map_to_list (range (DocumentMatch.Locations d)) →
  fragments ≡ₚ map_to_list (range (DocumentMatch.Fragments d)) →
  fields ≡ₚ map_to_list (range (DocumentMatch.Fields d)) →
  DocumentMatch_SizeInBytes_visiting locations fragments fields d τ =
  DocumentMatch.SizeInBytes d τ.
Proof.
  intros HL HF HFi.
  rewrite DocumentMatch_SizeInBytes_total.
  unfold DocumentMatch_SizeInBytes_visiting, DocumentMatch_total. cbv zeta.
  rewrite (iadd_unfold (iadd _ _) (Z.of_nat _)).
  assert (Hexpl : ∀ a, match DocumentMatch.Expl d with
                       | Some expl => iadd (wrap IntBits a) (Explanation_SizeInBytes expl)
                       | None => wrap IntBits a
                       end = wrap IntBits (a + Expl_total (DocumentMatch.Expl d))).
  { intros a. destruct (DocumentMatch.Expl d); simpl.
    - rewrite iadd_unfold. int_eq.
    - by rewrite Z.add_0_r. }
  rewrite Hexpl.
  rewrite (fold_left_pairs (DocumentMatch.SizeInBytes_location τ) (location_total τ)).
  2:{ intros k v acc. unfold DocumentMatch.SizeInBytes_location, location_total.
      rewrite iadd_unfold. int_eq. }
  rewrite (fold_left_pairs DocumentMatch.SizeInBytes_fragment fragment_total).
  2:{ intros k v acc. unfold DocumentMatch.SizeInBytes_fragment, fragment_total.
      rewrite iadd_unfold, strings_stage. int_eq. }
  rewrite strings_stage.
  rewrite (fold_left_pairs DocumentMatch.SizeInBytes_field field_total).
  2:{ intros k v acc. unfold DocumentMatch.SizeInBytes_field, field_total.
      rewrite iadd_unfold. int_eq. }
  rewrite (lsum_Permutation _ _ _ HL), (lsum_Permutation _ _ _ HF),
    (lsum_Permutation _ _ _ HFi), <-!msum_map_to_list.
  destruct (DocumentMatch.Document d) as [doc|].
  - rewrite SizeInBytes_document_total, iadd_unfold. int_eq.
  - unfold Document_total. int_eq.
Qed.

End SizeShape.
End SizeShape.

(** ** [AddLocation]: what it stores and what it leaves alone *)

Module AddLocationStore.
Section AddLocationStore.
Context `{Platform} `{Collaborators}.
Import TermLocationMap.





End AddLocationStore.
End AddLocationStore.

(** ** Reuse of matches and sizes *)

Module ReuseFacts.
Section ReuseFacts.
Context `{Platform} `{Collaborators}.
Import DocumentMatch.

Lemma Reset_contents (σ : gmap positive t) (dm : ptr) (d : t) :
  σ !! dm = Some d →
  Reset dm σ =
  Some (dm, <[dm := set_Sort (Slice.mk (Slice.array (Sort d)) 0)
                      (set_IndexInternalID
                         (Slice.mk (Slice.array (IndexInternalID d)) 0) zero)]> σ).
Proof.
  intros Hd. unfold Reset. rewrite Hd.
  unfold Slice.reslice. by rewrite !decide_True by lia.
Qed.

(** X14: after [Reset] the size of a match is the overhead of a
    [DocumentMatch] and nothing more, whatever capacity its buffers keep and
    whatever the term location maps hold. *)
Theorem Reset_SizeInBytes (σ : gmap positive t) (dm : ptr) (d : t) :
  σ !! dm = Some d →
  ∃ σ' d', Reset dm σ = Some (dm, σ') ∧ σ' !! dm = Some d' ∧
           ∀ τ, SizeInBytes d' τ = TypeSize TDocumentMatch + SizeOfPointer.
Proof.
  intros Hd. rewrite (Reset_contents σ dm d Hd).
  eexists _, _. split; [reflexivity|]. split; [apply lookup_insert_eq|].
  intros τ. rewrite DocumentMatch_SizeInBytes_total.
  unfold DocumentMatch_total. simpl.
  unfold range; simpl. rewrite !msum_empty.
  unfold Slice.elems; simpl. unfold lsum, len_string; simpl.
  rewrite HeapOverhead_DocumentMatch, !Z.add_0_r.
  apply wrap_small, small_in_int.
  pose proof (overhead_with_pointer TDocumentMatch) as [_ ?]. lia.
Qed.

(** X15: [Reset] on a match that was just reset changes nothing, and a
    reset match is serialized with the keys [id] and [score] only. *)
Theorem Reset_idempotent (σ σ' : gmap positive t) (dm : ptr) :
  Reset dm σ = Some (dm, σ') →
  Reset dm σ' = Some (dm, σ') ∧
  ∃ d', σ' !! dm = Some d' ∧ json_keys d' = ["id"; "score"].
Proof.
  intros Hreset. destruct (σ !! dm) as [d|] eqn:Hd.
  - rewrite (Reset_contents σ dm d Hd) in Hreset. injection Hreset as <-.
    split.
    + erewrite Reset_contents by apply lookup_insert_eq. simpl.
      by rewrite insert_insert_eq.
    + eexists. split; [apply lookup_insert_eq|]. reflexivity.
  - unfold Reset in Hreset. by rewrite Hd in Hreset.
Qed.

(** X16: [AddFieldValue] under a new name adds the length of the name and
    the overheads of a string and of an interface value to the size of the
    match, in [int] arithmetic; under a name that is there already it leaves
    the size as it is, since values are not counted. Either way the
    serialized match has the key [fields] afterwards. *)
Theorem AddFieldValue_SizeInBytes (σ : gmap positive t) (dm : ptr) (d : t)
    (name : string) (value : interface)
    (τ : gmap positive (gmap string (list Location.t))) :
  σ !! dm = Some d →
  ∃ d', AddFieldValue dm name value σ = Some (<[dm := d']> σ) ∧
        (range (Fields d) !! name = None →
         SizeInBytes d' τ =
           wrap IntBits (SizeInBytes d τ +
                         (len_string name + SizeOfString + SizeOfInterface))) ∧
        (is_Some (range (Fields d) !! name) →
         SizeInBytes d' τ = SizeInBytes d τ) ∧
        "fields" ∈ json_keys d'.
Proof.
  intros Hd.
  destruct (DocumentMatchFacts.AddFieldValue_step σ dm d name value Hd)
    as (d' & Hrun & Hnew & Hscalar & Hslice & Hother & Hrest).
  exists d'. split; [done|].
  assert (Hparts : ∀ x, msum field_total (range (Fields d')) = x →
            SizeInBytes d' τ =
            wrap IntBits (SizeInBytes d τ + (x - msum field_total (range (Fields d))))).
  { intros x Hx. rewrite !DocumentMatch_SizeInBytes_total.
    unfold DocumentMatch_total. rewrite Hx, Hrest. simpl. int_eq. }
  assert (Hin : is_Some (range (Fields d') !! name)).
  { destruct (range (Fields d) !! name) as [e|] eqn:He.
    - destruct e as [s|f|l].
      + rewrite (Hscalar _ eq_refl eq_refl). eauto.
      + rewrite (Hscalar _ eq_refl eq_refl). eauto.
      + rewrite (Hslice _ eq_refl). eauto.
    - rewrite (Hnew eq_refl). eauto. }
  split; [|split].
  - intros Hnone. destruct Hin as [v Hv].
    assert (Heq : range (Fields d') = <[name := v]> (range (Fields d))).
    { apply map_eq. intros k. destruct (decide (k = name)) as [->|Hne].
      - by rewrite lookup_insert_eq.
      - rewrite lookup_insert_ne by done. by apply Hother. }
    rewrite (Hparts (field_total name v + msum field_total (range (Fields d)))).
    + unfold field_total. f_equal. lia.
    + rewrite Heq. by apply msum_insert.
  - intros Hsome.
    rewrite (Hparts (msum field_total (range (Fields d)))).
    + rewrite Z.sub_diag, Z.add_0_r, DocumentMatch_SizeInBytes_total.
      apply wrap_wrap.
    + unfold field_total.
      apply (msum_keys_only (λ k, len_string k + SizeOfString + SizeOfInterface)).
      apply set_eq. intros k. rewrite !elem_of_dom.
      destruct (decide (k = name)) as [->|Hne]; [done|]. by rewrite Hother.
  - apply JsonFacts.elem_of_json_keys. do 7 right. split; [done|].
    cbn [is_empty]. apply bool_decide_eq_false.
    rewrite JsonFacts.size_range_empty. intros Hempty.
    rewrite Hempty, lookup_empty in Hin. by destruct Hin.
Qed.

End ReuseFacts.
End ReuseFacts.

(** ** Collections: sizes under rearrangement *)

Module CollectionShape.
Section CollectionShape.
Context `{Platform} `{Collaborators}.
Import DocumentMatchCollection.

(** X17: the size of a collection does not depend on the order of its
    entries; in particular [Swap] leaves it as it is. *)
Theorem SizeInBytes_rearranged (c : list (option DocumentMatch.t))
    (τ : gmap positive (gmap string (list Location.t))) :
  (∀ c', c ≡ₚ c' → SizeInBytes c' τ = SizeInBytes c τ) ∧
  (∀ i j c', Swap c i j = Some c' → SizeInBytes c' τ = SizeInBytes c τ).
Proof.
  assert (Hperm : ∀ c', c ≡ₚ c' → SizeInBytes c' τ = SizeInBytes c τ).
  { intros c' Hp. rewrite !CollectionSizeFacts.SizeInBytes_total.
    f_equal. f_equal. apply lsum_Permutation. unfold non_nil. by rewrite Hp. }
  split; [done|].
  intros i j c'. unfold Swap.
  destruct (index c i) as [ci|] eqn:Hi; [|done].
  destruct (index c j) as [cj|] eqn:Hj; [|done].
  intros [= <-]. apply Hperm. symmetry.
  apply CollectionOrder.index_Some in Hi as [_ Hi].
  apply CollectionOrder.index_Some in Hj as [_ Hj].
  by apply swap_Permutation.
Qed.

End CollectionShape.
End CollectionShape.

(** ** The table of overheads *)

Module OverheadTable.
Section OverheadTable.
Context `{Platform}.

Lemma init_lookup (table : gmap string Z) (key : string) :
  init table !! key =
  if decide (key ∈ overhead_keys) then HeapOverhead !! key else table !! key.
Proof.
  destruct (decide (key ∈ overhead_keys)) as [Hin|Hnin].
  - unfold overhead_keys in Hin.
    rewrite !elem_of_cons, elem_of_nil in Hin.
    unfold HeapOverhead, init.
    repeat destruct Hin as [->|Hin]; [..|done];
      rewrite ?lookup_insert_ne by discriminate; by rewrite !lookup_insert_eq.
  - unfold init.
    by rewrite !lookup_insert_ne
      by (intros <-; apply Hnin; apply (bool_decide_unpack _); by vm_compute).
Qed.

Lemma HeapOverhead_with_pointer (key : string) (ty : GoType) :
  HeapOverhead !! key = Some (iadd (int (TypeSize ty)) SizeOfPointer) →
  HeapOverhead_at key = TypeSize ty + SizeOfPointer.
Proof.
  intros Hkey. unfold HeapOverhead_at. rewrite Hkey. simpl.
  apply overhead_with_pointer.
Qed.

(** X18: [init] stores nine keys, each with the size of its struct, to which
    the size of a pointer is added for all but [DocumentMatchCollection] and
    [TermLocationMap], with no loss in the [int] addition; it replaces what a
    table held under these keys, keeps every other key, and running it again
    changes nothing. A key it does not store reads as 0. *)
Theorem init_table (table : gmap string Z) :
  dom HeapOverhead = list_to_set overhead_keys ∧
  (∀ key, key ∈ overhead_keys → init table !! key = HeapOverhead !! key) ∧
  (∀ key, key ∉ overhead_keys → init table !! key = table !! key) ∧
  init (init table) = init table ∧
  (∀ key, key ∉ overhead_keys → HeapOverhead_at key = 0) ∧
  HeapOverhead_at "SearchContext" = TypeSize TSearchContext + SizeOfPointer ∧
  HeapOverhead_at "DocumentMatchPool" = TypeSize TDocumentMatchPool + SizeOfPointer ∧
  HeapOverhead_at "DocumentMatchCollection" = TypeSize TDocumentMatchCollection ∧
  HeapOverhead_at "DocumentMatch" = TypeSize TDocumentMatch + SizeOfPointer ∧
  HeapOverhead_at "TermLocationMap" = TypeSize TTermLocationMap ∧
  HeapOverhead_at "Location" = TypeSize TLocation + SizeOfPointer ∧
  HeapOverhead_at "Document" = TypeSize TDocument + SizeOfPointer ∧
  HeapOverhead_at "CompositeField" = TypeSize TCompositeField + SizeOfPointer ∧
  HeapOverhead_at "SearcherOptions" = TypeSize TSearcherOptions + SizeOfPointer.
Proof.
  split; [|split; [|split; [|split; [|split]]]].
  - apply set_eq. intros key. rewrite elem_of_dom, elem_of_list_to_set.
    unfold HeapOverhead. rewrite init_lookup.
    destruct (decide (key ∈ overhead_keys)) as [Hin|Hnin].
    + split; [done|]. intros _.
      unfold overhead_keys in Hin. rewrite !elem_of_cons, elem_of_nil in Hin.
      unfold HeapOverhead, init.
      repeat destruct Hin as [->|Hin]; [..|done];
        rewrite ?lookup_insert_ne by discriminate; rewrite !lookup_insert_eq; eauto.
    + rewrite lookup_empty. split; [by intros [? ?]|done].
  - intros key Hin. by rewrite init_lookup, decide_True.
  - intros key Hnin. by rewrite init_lookup, decide_False.
  - apply map_eq. intros key. rewrite !init_lookup.
    by destruct (decide (key ∈ overhead_keys)).
  - intros key Hnin. unfold HeapOverhead_at, HeapOverhead.
    by rewrite init_lookup, decide_False, lookup_empty.
  - repeat split.
    + apply HeapOverhead_with_pointer. unfold HeapOverhead, init.
      rewrite ?lookup_insert_ne by discriminate. by rewrite lookup_insert_eq.
    + apply HeapOverhead_with_pointer. unfold HeapOverhead, init.
      rewrite ?lookup_insert_ne by discriminate. by rewrite lookup_insert_eq.
    + apply HeapOverhead_DocumentMatchCollection.
    + apply HeapOverhead_DocumentMatch.
    + apply HeapOverhead_TermLocationMap.
    + apply HeapOverhead_Location.
    + apply HeapOverhead_Document.
    + apply HeapOverhead_CompositeField.
    + apply HeapOverhead_with_pointer. unfold HeapOverhead, init.
      by rewrite lookup_insert_eq.
Qed.

End OverheadTable.
End OverheadTable.

(** ** Further concrete runs *)

Module FurtherRuns.

(** Three matches with scores 4.0, 2.0 and 1.0. *)
Lemma Less_strict_order_witness :
  let four := S754_finite false 4503599627370496 (-50) in
  let two := S754_finite false 4503599627370496 (-51) in
  let one := S754_finite false 4503599627370496 (-52) in
  let mk score := DocumentMatch.mk (H0 := plain_collaborators)
                    "" "d" Slice.nil score None None None Slice.nil None None 0 in
  let c := [Some (mk four); Some (mk two); Some (mk one)] in
  DocumentMatchCollection.Less c 0 0 = Some false ∧
  (DocumentMatchCollection.Less c 0 1 = Some true →
   DocumentMatchCollection.Less c 1 2 = Some true →
   DocumentMatchCollection.Less c 0 2 = Some true).
Proof.
  intros four two one mk c.
  apply (CollectionOrder.Less_strict_order c 0 1 2 (mk four) (mk two) (mk one));
    reflexivity.
Defined.

(** A match with a NaN score beside a match with score 1.0. *)
Lemma Less_NaN_witness :
  let one := S754_finite false 4503599627370496 (-52) in
  let mk score := DocumentMatch.mk (H0 := plain_collaborators)
                    "" "d" Slice.nil score None None None Slice.nil None None 0 in
  let c := [Some (mk S754_nan); Some (mk one)] in
  DocumentMatchCollection.Less c 0 1 = Some false ∧
  DocumentMatchCollection.Less c 1 0 = Some false.
Proof.
  intros one mk c.
  apply (CollectionOrder.Less_NaN c 0 1 (mk S754_nan) (mk one)); reflexivity.
Defined.

(** The first and the last of three entries, one of them nil, exchanged. *)
Lemma Swap_exchanges_witness :
  let mk id := DocumentMatch.mk (H0 := plain_collaborators)
                 "" id Slice.nil (S754_zero false) None None None Slice.nil
                 None None 0 in
  let c := [Some (mk "a"); None; Some (mk "c")] in
  ∃ c', DocumentMatchCollection.Swap c 0 2 = Some c' ∧
        DocumentMatchCollection.index c' 0 = DocumentMatchCollection.index c 2 ∧
        DocumentMatchCollection.index c' 2 = DocumentMatchCollection.index c 0 ∧
        (∀ k, k ≠ 0 → k ≠ 2 →
              DocumentMatchCollection.index c' k = DocumentMatchCollection.index c k) ∧
        DocumentMatchCollection.Len c' = DocumentMatchCollection.Len c ∧
        c' ≡ₚ c ∧
        DocumentMatchCollection.Swap c' 0 2 = Some c.
Proof.
  intros mk c. apply (CollectionOrder.Swap_exchanges c 0 2); vm_compute; split; congruence.
Defined.

(** The two terms of a map visited in the other order, on linux/amd64. *)
Lemma TermLocationMap_SizeInBytes_any_order_witness :
  let quick := [Location.mk 1 0 5 []] in
  let brown := [Location.mk 2 6 11 [0; 1]] in
  let τ : gmap positive (gmap string (list Location.t)) :=
    {[1%positive := {["quick" := quick; "brown" := brown]}]} in
  SizeInBytes_visiting (H := amd64) [("brown", brown); ("quick", quick)] =
  TermLocationMap.SizeInBytes (H := amd64) (Some 1%positive) τ.
Proof.
  intros quick brown τ.
  apply (SizeShape.TermLocationMap_SizeInBytes_any_order (H := amd64) τ 1%positive).
  vm_compute. apply perm_swap.
Defined.

(** Two matches that differ in score, hit number, identifier bytes, spare
    capacity and field values. *)
Lemma DocumentMatch_SizeInBytes_reads_witness :
  let d := DocumentMatch.mk (H0 := plain_collaborators)
             "idx" "doc-1" (Slice.mk [Byte.x00; Byte.x01] 2)
             (S754_zero false) None None None (Slice.mk ["a"] 1)
             (Some {["tag" := IString "x"]}) None 0 in
  let d' := DocumentMatch.mk (H0 := plain_collaborators)
              "idx" "doc-1" (Slice.mk [Byte.x07; Byte.x08; Byte.x09] 2)
              (S754_finite false 4503599627370496 (-52)) None None None
              (Slice.mk ["a"; "spare"] 1)
              (Some {["tag" := ISlice [IString "x"; IString "y"; IString "z"]]})
              None 41 in
  DocumentMatch.SizeInBytes (H := amd64) d' ∅ =
  DocumentMatch.SizeInBytes (H := amd64) d ∅.
Proof.
  intros d d'.
  apply (SizeShape.DocumentMatch_SizeInBytes_reads (H := amd64) d d' ∅);
    vm_compute; reflexivity.
Defined.


(** A match with a score, fields and buffers in use, reset. *)
Lemma Reset_SizeInBytes_witness :
  let d := DocumentMatch.mk (H0 := plain_collaborators)
             "idx" "doc-1" (Slice.mk [Byte.x00; Byte.x01; Byte.x02] 3)
             (S754_finite false 4503599627370496 (-52)) None
             (Some {["body" := Some 1%positive]}) None
             (Slice.mk ["a"; "b"] 2)
             (Some {["title" := IString "x"]}) None 7 in
  let σ : gmap positive DocumentMatch.t := {[1%positive := d]} in
  ∃ σ' d', DocumentMatch.Reset 1%positive σ = Some (1%positive, σ') ∧
           σ' !! 1%positive = Some d' ∧
           ∀ τ, DocumentMatch.SizeInBytes (H := amd64) d' τ = 136 + 8.
Proof.
  intros d σ.
  apply (ReuseFacts.Reset_SizeInBytes (H := amd64) σ 1%positive d).
  vm_compute. reflexivity.
Defined.

Lemma Reset_idempotent_witness :
  let d := DocumentMatch.mk (H0 := plain_collaborators)
             "idx" "doc-1" (Slice.mk [Byte.x00; Byte.x01; Byte.x02] 3)
             (S754_finite false 4503599627370496 (-52)) None None None
             (Slice.mk ["a"; "b"] 2) None None 7 in
  let d0 := DocumentMatch.mk (H0 := plain_collaborators)
              "" "" (Slice.mk [Byte.x00; Byte.x01; Byte.x02] 0)
              (S754_zero false) None None None
              (Slice.mk ["a"; "b"] 0) None None 0 in
  let σ : gmap positive DocumentMatch.t := {[1%positive := d]} in
  let σ' : gmap positive DocumentMatch.t := {[1%positive := d0]} in
  DocumentMatch.Reset 1%positive σ' = Some (1%positive, σ') ∧
  ∃ d', σ' !! 1%positive = Some d' ∧ DocumentMatch.json_keys d' = ["id"; "score"].
Proof.
  intros d d0 σ σ'.
  apply (ReuseFacts.Reset_idempotent (H0 := plain_collaborators) σ σ' 1%positive).
  vm_compute. reflexivity.
Defined.

(** A value added under a name the match does not have yet, on linux/amd64. *)
Lemma AddFieldValue_SizeInBytes_witness :
  let d := DocumentMatch.mk (H0 := plain_collaborators)
             "" "doc-1" Slice.nil (S754_zero false) None None None Slice.nil
             (Some {["title" := IString "x"]}) None 0 in
  let σ : gmap positive DocumentMatch.t := {[1%positive := d]} in
  ∃ d', DocumentMatch.AddFieldValue 1%positive "tag" (IString "a") σ =
          Some (<[1%positive := d']> σ) ∧
        (range (DocumentMatch.Fields d) !! "tag" = None →
         DocumentMatch.SizeInBytes (H := amd64) d' ∅ =
           wrap 64 (DocumentMatch.SizeInBytes (H := amd64) d ∅ +
                    (len_string "tag" + 16 + 16))) ∧
        (is_Some (range (DocumentMatch.Fields d) !! "tag") →
         DocumentMatch.SizeInBytes (H := amd64) d' ∅ =
         DocumentMatch.SizeInBytes (H := amd64) d ∅) ∧
        "fields" ∈ DocumentMatch.json_keys d'.
Proof.
  intros d σ.
  apply (ReuseFacts.AddFieldValue_SizeInBytes (H := amd64) σ 1%positive d
           "tag" (IString "a") ∅).
  vm_compute. reflexivity.
Defined.

(** The fields of a match visited in the other order, on linux/amd64. *)
Lemma DocumentMatch_SizeInBytes_any_order_witness :
  let d := DocumentMatch.mk (H0 := plain_collaborators)
             "" "doc-1" Slice.nil (S754_zero false) None
             (Some {["body" := Some 1%positive; "title" := None]})
             (Some {["body" := ["a"; "b"]; "title" := ["c"]]})
             Slice.nil
             (Some {["tag" := IString "x"; "year" := IString "y"]}) None 0 in
  let τ : gmap positive (gmap string (list Location.t)) :=
    {[1%positive := {["quick" := [Location.mk 1 0 5 []]]}]} in
  DocumentMatch_SizeInBytes_visiting (H := amd64)
    [("title", None); ("body", Some 1%positive)]
    [("title", ["c"]); ("body", ["a"; "b"])]
    [("tag", IString "x"); ("year", IString "y")] d τ =
  DocumentMatch.SizeInBytes (H := amd64) d τ.
Proof.
  intros d τ.
  apply (SizeShape.DocumentMatch_SizeInBytes_any_order (H := amd64) d τ);
    vm_compute; apply perm_swap.
Defined.

End FurtherRuns.
